(** * Subflow: the storage-coordination layer

    A shallow embedding of [js/storage/storage-manager.js] (the
    [StorageManager] class: a promise chain used as an operation queue, an
    in-memory cache, and the two-set move) and of the background service
    worker's write buffer ([scheduleFlush], [flushPendingWrites],
    [writeChunkWithRetry] and the [storageOp] message handler).

    JavaScript objects that are only read by key and spread are finite maps
    ([gmap string value]); the pending write buffer, whose [Object.keys] order
    decides the chunks, is an insertion-ordered association list.  Promises
    are modelled by their settled state; every [await] on the backing store
    consumes one outcome of a script held in the state, and every adapter
    call is logged.  Writers in other contexts and the [onChanged] listener
    that reports them are outside the model: between two operations the
    backing store changes only through this manager. *)

From stdpp Require Import gmap strings list fin_maps.
From Stdlib Require Import ZArith.

Open Scope string_scope.
Open Scope Z_scope.

(** ** Values, errors, results *)

(** The stored values: scalars, and arrays of strings that stand for sets.
    [undefined] is the absence of a value ([None] at type [option value]). *)
Inductive value :=
| VBool (b : bool)
| VNum (n : Z)
| VStr (s : string)
| VArr (l : list string).

Abbreviation obj := (gmap string value).

Inductive error :=
| NotInitialized                 (* Error('[StorageManager] Not initialized! ...') *)
| TypeError                      (* thrown by the engine: property of null, value not iterable *)
| AdapterFailure (msg : string)  (* a chrome.storage.local call rejected *)
| CallbackError (msg : string)   (* thrown by a caller-supplied updateFn *)
| UnknownOp.                     (* Error('Unknown storage op: ...') *)

Inductive res (A : Type) :=
| Ok (a : A)
| Err (e : error).
Arguments Ok {A} a.
Arguments Err {A} e.

Definition is_ok {A} (r : res A) : bool :=
  match r with Ok _ => true | Err _ => false end.

#[global] Instance value_eq_dec : EqDecision value.
Proof. solve_decision. Defined.

#[global] Instance error_eq_dec : EqDecision error.
Proof. solve_decision. Defined.

(** JavaScript truthiness of a possibly-undefined value. *)
Definition truthy (v : option value) : bool :=
  match v with
  | None => false
  | Some (VBool b) => b
  | Some (VNum n) => negb (Z.eqb n 0)
  | Some (VStr s) => negb (String.eqb s "")
  | Some (VArr _) => true
  end.

(** ** [Set] objects

    A JavaScript [Set] keeps its elements in insertion order; [Array.from]
    lists them in that order, so a set is the list [Array.from] returns. *)
Definition set_add (x : string) (s : list string) : list string :=
  if decide (x ∈ s) then s else s ++ [x].

Definition set_delete (x : string) (s : list string) : list string :=
  filter (λ y, y ≠ x) s.

Definition set_of_list (l : list string) : list string :=
  foldl (λ s x, set_add x s) [] l.

(** Iterating a string yields its characters. *)
Definition chars (s : string) : list string :=
  (λ a, String a EmptyString) <$> String.list_ascii_of_string s.

(** [new Set(v)]: arrays and strings are iterable, booleans and numbers are
    not and make the constructor throw. *)
Definition new_Set (v : value) : res (list string) :=
  match v with
  | VArr l => Ok (set_of_list l)
  | VStr s => Ok (set_of_list (chars s))
  | VBool _ | VNum _ => Err TypeError
  end.

(** ** The manager, the backing store and the monad of queued bodies *)

(** Calls made on [chrome.storage.local]. *)
Inductive call :=
| CGet (ks : list string)       (* get(key) / get([k1, k2]) *)
| CGetAll                       (* get() *)
| CGetDefaults (schema : obj)   (* get({k: default, ...}) *)
| CSet (o : obj)                (* set(o) *)
| CClear.                       (* clear() *)

(** One record holds the [StorageManager] instance ([cache], [initialized],
    [queue]) and the world it talks to: the contents of the backing store,
    the outcomes of the adapter calls still to come ([None]: the call
    resolves, [Some msg]: it rejects; an exhausted script resolves), and the
    log of the calls made so far. *)
Record state := mkState {
  cache : option obj;
  initialized : bool;
  queue : option error;
  store : obj;
  script : list (option string);
  trace : list call
}.

Definition with_cache (c : option obj) (s : state) : state :=
  mkState c (initialized s) (queue s) (store s) (script s) (trace s).
Definition with_initialized (b : bool) (s : state) : state :=
  mkState (cache s) b (queue s) (store s) (script s) (trace s).
Definition with_queue (q : option error) (s : state) : state :=
  mkState (cache s) (initialized s) q (store s) (script s) (trace s).
Definition with_store (m : obj) (s : state) : state :=
  mkState (cache s) (initialized s) (queue s) m (script s) (trace s).
Definition with_script (l : list (option string)) (s : state) : state :=
  mkState (cache s) (initialized s) (queue s) (store s) l (trace s).
Definition with_trace (t : list call) (s : state) : state :=
  mkState (cache s) (initialized s) (queue s) (store s) (script s) t.

(** [new StorageManager()] over a given backing store. *)
Definition new_StorageManager (backing : obj) (outcomes : list (option string)) : state :=
  mkState None false None backing outcomes [].

(** Bodies of async functions: they read and write the state and either
    return or throw; what they wrote before throwing stays written. *)
Definition M (A : Type) : Type := state → res A * state.

#[global] Instance M_ret : MRet M := λ A a s, (Ok a, s).
#[global] Instance M_bind : MBind M := λ A B f m s,
  match m s with
  | (Ok a, s') => f a s'
  | (Err e, s') => (Err e, s')
  end.

Definition throw {A} (e : error) : M A := λ s, (Err e, s).
Definition get_state : M state := λ s, (Ok s, s).
Definition modify (f : state → state) : M unit := λ s, (Ok tt, f s).
Definition lift_res {A} (r : res A) : M A := λ s, (r, s).

(** ** The backing store adapter *)

Definition adapter (c : call) : M unit := λ s,
  let s' := with_trace (trace s ++ [c]) s in
  match script s with
  | Some msg :: rest => (Err (AdapterFailure msg), with_script rest s')
  | None :: rest => (Ok tt, with_script rest s')
  | [] => (Ok tt, s')
  end.

Definition restrict (ks : list string) (m : obj) : obj :=
  filter (λ kv, kv.1 ∈ ks) m.

Definition storage_get (ks : list string) : M obj :=
  adapter (CGet ks);; s ← get_state; mret (restrict ks (store s)).

Definition storage_get_all : M obj :=
  adapter CGetAll;; s ← get_state; mret (store s).

(** [get(schema)] answers the stored value of each key of the schema and the
    schema's default where the store has none. *)
Definition storage_get_defaults (schema : obj) : M obj :=
  adapter (CGetDefaults schema);; s ← get_state;
  mret (restrict ((map_to_list schema).*1) (store s) ∪ schema).

Definition storage_set (o : obj) : M unit :=
  adapter (CSet o);; modify (λ s, with_store (o ∪ store s) s).

Definition storage_clear : M unit :=
  adapter CClear;; modify (with_store ∅).

(** ** The promise chain

    [this.queue.then(body)] followed by [this.queue = resultPromise]: when
    the chain is fulfilled the body runs and the chain takes its outcome;
    when the chain is rejected the body is skipped, the result promise
    rejects with the same reason and the chain stays rejected. *)
Definition enqueue {A} (body : M A) : M A := λ s,
  match queue s with
  | Some e => (Err e, s)
  | None =>
      let (r, s') := body s in
      (r, with_queue (match r with Ok _ => None | Err e => Some e end) s')
  end.

(** The variant used by [moveToSet]:
    [this.queue = resultPromise.catch(() => Promise.resolve())]. *)
Definition enqueue_caught {A} (body : M A) : M A := λ s,
  match queue s with
  | Some e => (Err e, with_queue None s)
  | None => let (r, s') := body s in (r, with_queue None s')
  end.

(** ** The operations of [StorageManager] *)

(** The argument of [get] and of [initialize]: a key, an array of keys, or
    an object of defaults. *)
Inductive keys_arg :=
| KStr (k : string)
| KArr (ks : list string)
| KObj (defaults : obj).

(** [chrome.storage.local.get(schema)] for each shape of [schema]. *)
Definition storage_get_schema (schema : keys_arg) : M obj :=
  match schema with
  | KObj defaults => storage_get_defaults defaults
  | KArr ks => storage_get ks
  | KStr k => storage_get [k]
  end.

Definition initialize_body (schema : keys_arg) : M obj :=
  data ← storage_get_schema schema;
  modify (with_cache (Some data));;
  modify (with_initialized true);;
  mret data.

(** [initialize] answers from the cache without queueing when the manager
    is already initialized; the cache is then an object ([cache_ready]). *)
Definition initialize (schema : keys_arg) : M obj := λ s,
  if initialized s then (Ok (default ∅ (cache s)), s)
  else enqueue (initialize_body schema) s.

(** [get] uses only the keys of an object of defaults. *)
Definition key_list (keys : keys_arg) : list string :=
  match keys with
  | KObj o => (map_to_list o).*1
  | KArr ks => ks
  | KStr k => [k]
  end.

(** The result of [get] has every requested key, some bound to [undefined]. *)
Definition get_body (keys : keys_arg) : M (gmap string (option value)) :=
  s ← get_state;
  if negb (initialized s) then throw NotInitialized
  else match cache s with
       | None => throw TypeError
       | Some c =>
           mret (foldl (λ result key, <[key := c !! key]> result) ∅ (key_list keys))
       end.

Definition get (keys : keys_arg) : M (gmap string (option value)) :=
  enqueue (get_body keys).

Definition _setInternal (items : obj) (skipRemoteRead : bool) : M unit :=
  s ← get_state;
  if negb (initialized s) then throw NotInitialized
  else
    baseRemote ← (if skipRemoteRead then mret (default ∅ (cache s))
                  else storage_get_all);
    let merged := items ∪ baseRemote in
    storage_set merged;;
    modify (with_cache (Some merged)).

Definition set (items : obj) : M unit :=
  enqueue (_setInternal items false).

Definition cache_lookup (key : string) : M (option value) :=
  s ← get_state;
  match cache s with
  | None => throw TypeError
  | Some c => mret (c !! key)
  end.

Definition update_body (key : string) (updateFn : option value → res value) : M value :=
  s ← get_state;
  if negb (initialized s) then throw NotInitialized
  else
    remoteObj ← storage_get [key];
    currentValue ← (match remoteObj !! key with
                    | Some v => mret (Some v)
                    | None => cache_lookup key
                    end);
    newValue ← lift_res (updateFn currentValue);
    _setInternal {[key := newValue]} false;;
    mret newValue.

Definition update (key : string) (updateFn : option value → res value) : M value :=
  enqueue (update_body key updateFn).

(** The callbacks of [addToSet] and [removeFromSet]; the default parameter
    [currentArray = []] replaces [undefined]. *)
Definition add_item (item : string) (currentArray : option value) : res value :=
  match new_Set (default (VArr []) currentArray) with
  | Ok s => Ok (VArr (set_add item s))
  | Err e => Err e
  end.

Definition remove_item (item : string) (currentArray : option value) : res value :=
  match new_Set (default (VArr []) currentArray) with
  | Ok s => Ok (VArr (set_delete item s))
  | Err e => Err e
  end.

Definition addToSet (key item : string) : M value := update key (add_item item).
Definition removeFromSet (key item : string) : M value := update key (remove_item item).

(** [this.cache[k] || []]; reading a property of [null] throws. *)
Definition cache_or_empty (c : option obj) (k : string) : res value :=
  match c with
  | None => Err TypeError
  | Some c => Ok (match c !! k with
                  | Some w => if truthy (Some w) then w else VArr []
                  | None => VArr []
                  end)
  end.

(** [(remote && remote[k]) ? remote[k] : (this.cache[k] || [])]. *)
Definition pick_array (remote : obj) (c : option obj) (k : string) : res value :=
  match remote !! k with
  | Some v => if truthy (Some v) then Ok v else cache_or_empty c k
  | None => cache_or_empty c k
  end.

Definition moveToSet_body (fromKey toKey item : string) : M unit :=
  remote ← storage_get [fromKey; toKey];
  s ← get_state;
  fromArray ← lift_res (pick_array remote (cache s) fromKey);
  toArray ← lift_res (pick_array remote (cache s) toKey);
  fromSet ← lift_res (new_Set fromArray);
  toSet ← lift_res (new_Set toArray);
  _setInternal (<[toKey := VArr (set_add item toSet)]>
                  (<[fromKey := VArr (set_delete item fromSet)]> ∅)) true.

Definition moveToSet (fromKey toKey item : string) : M unit :=
  enqueue_caught (moveToSet_body fromKey toKey item).

Definition clear : M unit :=
  enqueue (storage_clear;; modify (with_cache (Some ∅))).

Definition export : M obj :=
  enqueue (s ← get_state; mret (default ∅ (cache s))).

(** ** The background worker's write buffer

    [globalThis.storageManager] is the instance that importing
    storage-manager.js installs; a worker in which that import failed
    answers every [storageOp] with an error and is not modelled. *)

(** The pending buffer is an object whose [Object.keys] order (insertion
    order, for keys that are not array indices) decides the chunks. *)
Abbreviation pend := (list (string * value)).

Fixpoint plookup (k : string) (p : pend) : option value :=
  match p with
  | [] => None
  | (k', v) :: p' => if decide (k' = k) then Some v else plookup k p'
  end.

(** [p[k] = v]: an existing key keeps its place, a new one goes last. *)
Fixpoint passign (k : string) (v : value) (p : pend) : pend :=
  match p with
  | [] => [(k, v)]
  | (k', v') :: p' =>
      if decide (k' = k) then (k, v) :: p' else (k', v') :: passign k v p'
  end.

(** [{ ...a, ...b }]. *)
Definition spread (a b : pend) : pend :=
  foldl (λ acc kv, passign kv.1 kv.2 acc) a b.

Definition keys (p : pend) : list string := p.*1.

(** The object a [pend] denotes when only its bindings matter. *)
Definition to_obj (p : pend) : obj := list_to_map p.

Record metrics := mkMetrics {
  flushedCount : Z;
  failedFlushCount : Z;
  lastFlushAt : option Z;
  lastFlushError : option string
}.

(** [err.message]. *)
Definition message (e : error) : string :=
  match e with
  | NotInitialized => "[StorageManager] Not initialized! Call initialize() first."
  | TypeError => "TypeError"
  | AdapterFailure msg => msg
  | CallbackError msg => msg
  | UnknownOp => "Unknown storage op"
  end.

(** What a flush does, in order: chunk writes with their attempt number and
    outcome, and the timers it sleeps on between attempts. *)
Inductive flush_event :=
| Attempt (chunkObj : pend) (chunkAttempt : Z) (ok : bool)
| Backoff (ms : Z).

(** The worker's globals, the manager it owns, a clock, and the environment
    of a flush: [arrivals] holds, for each chunk write attempt to come, the
    buffered [set] requests that are handled while that attempt is awaited
    (merged into one object, empty when there are none). *)
Record bg := mkBg {
  pendingWrites : pend;
  pendingFlushTimer : option Z;   (* due time of the armed debounce timer *)
  flushInProgress : bool;
  flushMetrics : metrics;
  pendingFlushDelay : Z;
  storageManager : state;
  now : Z;
  arrivals : list pend;
  flushLog : list flush_event
}.

Definition with_pendingWrites (p : pend) (b : bg) : bg :=
  mkBg p (pendingFlushTimer b) (flushInProgress b) (flushMetrics b)
       (pendingFlushDelay b) (storageManager b) (now b) (arrivals b) (flushLog b).
Definition with_timer (t : option Z) (b : bg) : bg :=
  mkBg (pendingWrites b) t (flushInProgress b) (flushMetrics b)
       (pendingFlushDelay b) (storageManager b) (now b) (arrivals b) (flushLog b).
Definition with_flushInProgress (f : bool) (b : bg) : bg :=
  mkBg (pendingWrites b) (pendingFlushTimer b) f (flushMetrics b)
       (pendingFlushDelay b) (storageManager b) (now b) (arrivals b) (flushLog b).
Definition with_metrics (m : metrics) (b : bg) : bg :=
  mkBg (pendingWrites b) (pendingFlushTimer b) (flushInProgress b) m
       (pendingFlushDelay b) (storageManager b) (now b) (arrivals b) (flushLog b).
Definition with_delay (d : Z) (b : bg) : bg :=
  mkBg (pendingWrites b) (pendingFlushTimer b) (flushInProgress b) (flushMetrics b)
       d (storageManager b) (now b) (arrivals b) (flushLog b).
Definition with_manager (m : state) (b : bg) : bg :=
  mkBg (pendingWrites b) (pendingFlushTimer b) (flushInProgress b) (flushMetrics b)
       (pendingFlushDelay b) m (now b) (arrivals b) (flushLog b).
Definition with_now (t : Z) (b : bg) : bg :=
  mkBg (pendingWrites b) (pendingFlushTimer b) (flushInProgress b) (flushMetrics b)
       (pendingFlushDelay b) (storageManager b) t (arrivals b) (flushLog b).
Definition with_arrivals (a : list pend) (b : bg) : bg :=
  mkBg (pendingWrites b) (pendingFlushTimer b) (flushInProgress b) (flushMetrics b)
       (pendingFlushDelay b) (storageManager b) (now b) a (flushLog b).
Definition with_flushLog (l : list flush_event) (b : bg) : bg :=
  mkBg (pendingWrites b) (pendingFlushTimer b) (flushInProgress b) (flushMetrics b)
       (pendingFlushDelay b) (storageManager b) (now b) (arrivals b) l.

(** The worker as the first [storageOp] message finds it. *)
Definition new_background (m : state) (incoming : list pend) : bg :=
  mkBg [] None false (mkMetrics 0 0 None None) 100 m 0 incoming [].

(** [scheduleFlush(delay)]: the pending timer is cleared and a new one armed. *)
Definition scheduleFlush (delay : option Z) (b : bg) : bg :=
  let d := default (pendingFlushDelay b) delay in
  with_timer (Some (now b + d)) b.

(** [callMethod(method, ...margs)] on the worker's manager. *)
Definition callMethod {A} (method : M A) (b : bg) : res A * bg :=
  let (r, m') := method (storageManager b) in (r, with_manager m' b).

(** The [set] requests handled while a chunk write is awaited: each merges
    into the buffer and re-arms the timer, as the [set] case of the handler
    does. *)
Definition arrive (b : bg) : bg :=
  match arrivals b with
  | [] => b
  | args :: rest =>
      let b1 := with_arrivals rest b in
      match args with
      | [] => b1
      | _ :: _ =>
          scheduleFlush (Some 100)
            (with_pendingWrites (spread (pendingWrites b1) args) b1)
      end
  end.

Definition log_event (e : flush_event) (b : bg) : bg :=
  with_flushLog (flushLog b ++ [e]) b.

(** [await new Promise(r => setTimeout(r, backoff))]. *)
Definition sleep (ms : Z) (b : bg) : bg :=
  log_event (Backoff ms) (with_now (now b + ms) b).

Definition chunkSize : nat := 20.

(** [writeChunkWithRetry(chunkObj, chunkAttempt)]; the recursion is on the
    number of retries left, of which two are enough from attempt 1: the
    branch for none left is then never taken ([writeChunkWithRetry_fuel]). *)
Fixpoint writeChunkWithRetry (fuel : nat) (chunkObj : pend) (chunkAttempt : Z)
    (b : bg) : res bool * bg :=
  let (r, b0) := callMethod (set (to_obj chunkObj)) b in
  let b1 := arrive b0 in
  let m := flushMetrics b1 in
  match r with
  | Ok _ =>
      (Ok true,
       log_event (Attempt chunkObj chunkAttempt true)
         (with_metrics
            (mkMetrics (flushedCount m + 1) (failedFlushCount m) (Some (now b1)) None)
            b1))
  | Err err =>
      let b2 :=
        log_event (Attempt chunkObj chunkAttempt false)
          (with_metrics
             (mkMetrics (flushedCount m) (failedFlushCount m) (Some (now b1))
                        (Some (message err)))
             b1) in
      if chunkAttempt <? 3 then
        let backoff := 100 * 2 ^ (chunkAttempt - 1) in
        let b3 := sleep backoff b2 in
        match fuel with
        | O => (Err err, b3)
        | S fuel' => writeChunkWithRetry fuel' chunkObj (chunkAttempt + 1) b3
        end
      else
        let m2 := flushMetrics b2 in
        (Err err,
         with_metrics
           (mkMetrics (flushedCount m2) (failedFlushCount m2 + 1)
                      (lastFlushAt m2) (lastFlushError m2))
           b2)
  end.

(** [keys.slice(i, j)]. *)
Definition slice {A} (l : list A) (i j : nat) : list A := take (j - i) (drop i l).

(** [for (const k of chunkKeys) chunkObj[k] = toWrite[k]]. *)
Definition chunk_of (toWrite : pend) (chunkKeys : list string) : pend :=
  foldl (λ chunkObj k,
           match plookup k toWrite with
           | Some v => passign k v chunkObj
           | None => chunkObj
           end) [] chunkKeys.

(** The chunk loop [for (let i = 0; i < keys.length; i += chunkSize)]; it
    runs at most [length ks] times, so that with this much fuel the branch
    for none left is never taken ([flush_chunks_fuel]). *)
Fixpoint flush_chunks (fuel : nat) (toWrite : pend) (ks : list string) (i : nat)
    (b : bg) : res unit * bg :=
  if (i <? length ks)%nat then
    match fuel with
    | O => (Ok tt, b)
    | S fuel' =>
        let chunkKeys := slice ks i (i + chunkSize) in
        let chunkObj := chunk_of toWrite chunkKeys in
        match writeChunkWithRetry 2 chunkObj 1 b with
        | (Ok _, b1) => flush_chunks fuel' toWrite ks (i + chunkSize) b1
        | (Err e, b1) => (Err e, b1)
        end
    end
  else (Ok tt, b).

(** [flushPendingWrites()]; it answers [true] after writing every chunk and
    [undefined], here [false], when it returns early. *)
Definition flushPendingWrites (b : bg) : res bool * bg :=
  if bool_decide (keys (pendingWrites b) = []) then (Ok false, b)
  else if flushInProgress b then (Ok false, b)
  else
    let b1 := with_flushInProgress true b in
    let toWrite := pendingWrites b1 in
    let b2 := with_pendingWrites [] b1 in
    let ks := keys toWrite in
    if bool_decide (ks = []) then (Ok false, with_flushInProgress false b2)
    else
      match flush_chunks (length ks) toWrite ks 0 b2 with
      | (Ok _, b3) => (Ok true, with_flushInProgress false b3)
      | (Err err, b3) =>
          (Err err,
           with_flushInProgress false
             (with_pendingWrites (spread toWrite (pendingWrites b3)) b3))
      end.

(** ** The [storageOp] message handler *)

Inductive request :=
| OpGet (args : keys_arg)
| OpSet (args : pend)
| OpAddToSet (key item : string)
| OpRemoveFromSet (key item : string)
| OpMoveToSet (fromKey toKey item : string)
| OpExport
| OpStatus
| OpSetFlushDelay (delay : option Z)   (* [None]: args.delay is not a number *)
| OpFlush
| OpFlushNow
| OpOther.                             (* any other op name *)

Inductive result :=
| RValues (values : gmap string (option value))
| RMergedKeys (mergedKeys : list string)
| RValue (v : value)
| RUndefined
| RObject (o : obj)
| RStatus (pendingKeys : list string) (pendingCount : nat) (m : metrics)
| RDelay (accepted : bool) (delay : option Z)
| RFlushed.

(** [sendResponse({ ok: true, result })] or
    [sendResponse({ ok: false, error: err.message })]. *)
Inductive response :=
| Reply (r : result)
| Failure (msg : string).

Definition respond {A} (f : A → result) (x : res A * bg) : response * bg :=
  match x.1 with
  | Ok a => (Reply (f a), x.2)
  | Err e => (Failure (message e), x.2)
  end.

Definition storageOp (req : request) (b0 : bg) : response * bg :=
  let b1 := if pendingFlushDelay b0 =? 0 then with_delay 100 b0 else b0 in
  let b :=
    if initialized (storageManager b1) then b1
    else
      let initSchema :=
        match req with
        | OpGet (KObj defaults) => KObj defaults
        | OpGet (KArr ks) => KArr ks
        | _ => KObj ∅
        end in
      (callMethod (initialize initSchema) b1).2 in
  match req with
  | OpGet args => respond RValues (callMethod (get args) b)
  | OpSet args =>
      (Reply (RMergedKeys (keys args)),
       scheduleFlush (Some 100)
         (with_pendingWrites (spread (pendingWrites b) args) b))
  | OpAddToSet key item => respond RValue (callMethod (addToSet key item) b)
  | OpRemoveFromSet key item => respond RValue (callMethod (removeFromSet key item) b)
  | OpMoveToSet fromKey toKey item =>
      respond (λ _, RUndefined) (callMethod (moveToSet fromKey toKey item) b)
  | OpExport => respond RObject (callMethod export b)
  | OpStatus =>
      (Reply (RStatus (keys (pendingWrites b)) (length (keys (pendingWrites b)))
                      (flushMetrics b)), b)
  | OpSetFlushDelay (Some d) => (Reply (RDelay true (Some d)), with_delay d b)
  | OpSetFlushDelay None => (Reply (RDelay false None), b)
  | OpFlush => respond (λ _, RFlushed) (flushPendingWrites b)
  | OpFlushNow => respond (λ _, RFlushed) (flushPendingWrites (with_timer None b))
  | OpOther => (Failure (message UnknownOp), b)
  end.

(** ** The worker's event loop

    A message is handled at its arrival time; the debounce timer fires at or
    after its due time and starts a flush whose failure is only logged.
    Time does not go backwards. *)
Inductive event :=
| Message (t : Z) (req : request)
| TimerFires (t : Z).

Definition step (ev : event) (b : bg) : option bg :=
  match ev with
  | Message t req =>
      if now b <=? t then Some (storageOp req (with_now t b)).2 else None
  | TimerFires t =>
      match pendingFlushTimer b with
      | Some due =>
          if (due <=? t) && (now b <=? t)
          then Some (flushPendingWrites (with_timer None (with_now t b))).2
          else None
      | None => None
      end
  end.

Fixpoint run (evs : list event) (b : bg) : option bg :=
  match evs with
  | [] => Some b
  | ev :: rest =>
      match step ev b with
      | Some b' => run rest b'
      | None => None
      end
  end.

(** The objects written to the backing store according to a log. *)
Definition writes (t : list call) : list obj :=
  omap (λ c, match c with CSet o => Some o | _ => None end) t.

(** ** Vocabulary of the statements *)

(** The elements of the array bound to [k] (none when [k] is unbound or
    bound to a scalar). *)
Definition members (m : option obj) (k : string) : list string :=
  match m with
  | Some o => match o !! k with Some (VArr l) => l | _ => [] end
  | None => []
  end.

(** The set that step 1 and 2 of [moveToSet] build for key [k]: the backing
    store's value when truthy, the cache's otherwise. *)
Definition view (s : state) (k : string) : res (list string) :=
  match pick_array (store s) (cache s) k with
  | Ok v => new_Set v
  | Err e => Err e
  end.

(** The object literal [moveToSet] hands to [_setInternal]. *)
Definition move_items (fromKey toKey item : string) (fs ts : list string) : obj :=
  <[toKey := VArr (set_add item ts)]> (<[fromKey := VArr (set_delete item fs)]> ∅).

(** The payload of the last [set] call of a log. *)
Definition last_write (t : list call) : option obj :=
  foldl (λ acc c, match c with CSet o => Some o | _ => acc end) None t.

(** What one adapter call does to the state besides answering: it is logged
    and consumes its outcome. *)
Definition after_call (c : call) (s : state) : state :=
  with_script (tail (script s)) (with_trace (trace s ++ [c]) s).

(** Whether the next adapter call of [s] resolves. *)
Definition next_resolves (s : state) : bool :=
  match head (script s) with Some (Some _) => false | _ => true end.

(** The reason with which the next adapter call of [s] rejects, when it does. *)
Definition rejection (s : state) : error :=
  match head (script s) with
  | Some (Some msg) => AdapterFailure msg
  | _ => TypeError
  end.

(** Whether the next two adapter calls of [s] resolve. *)
Definition resolves_twice (s : state) : bool :=
  next_resolves s && next_resolves (with_script (tail (script s)) s).

(** The reading of the spec's guarantee for [moveToSet]: whenever the persist
    succeeds the item is in the destination's set and not in the source's. *)
Definition move_ends_in_exactly_one (fromKey toKey item : string) (s : state) : Prop :=
  ∀ s', moveToSet fromKey toKey item s = (Ok tt, s') →
    item ∈ members (cache s') toKey ∧ item ∉ members (cache s') fromKey.

(** The reading of the spec for an item absent from the source: the move
    succeeds, the item joins the destination, the source keeps its members. *)
Definition absent_item_leaves_source (fromKey toKey item : string) (s : state) : Prop :=
  ∀ fs, view s fromKey = Ok fs → item ∉ fs →
    ∃ s', moveToSet fromKey toKey item s = (Ok tt, s')
          ∧ item ∈ members (cache s') toKey
          ∧ (∀ y, y ∈ members (cache s') fromKey ↔ y ∈ fs).

(** The reading of the spec's round trip: after [moveToSet(A, B, x)] and
    [moveToSet(B, A, x)] the item is in each set iff it was before. *)
Definition round_trip_restores (A B x : string) (s : state) : Prop :=
  ∀ s1 s2 fa fb,
    view s A = Ok fa → view s B = Ok fb →
    moveToSet A B x s = (Ok tt, s1) → moveToSet B A x s1 = (Ok tt, s2) →
    (x ∈ members (cache s2) A ↔ x ∈ fa) ∧ (x ∈ members (cache s2) B ↔ x ∈ fb).

(** The object persisted by a [moveToSet] issued in [s], if any. *)
Definition persisted_write (fromKey toKey item : string) (s : state) : option obj :=
  last_write (drop (length (trace s)) (trace (moveToSet fromKey toKey item s).2)).

(** The reading of the spec's "the merge it writes is based on the snapshot
    obtained in step 1": two managers to which step 1 answers the same
    write the same two sets. *)
Definition write_determined_by_step1_read
    (fromKey toKey item : string) (s1 s2 : state) : Prop :=
  restrict [fromKey; toKey] (store s1) = restrict [fromKey; toKey] (store s2) →
  ∀ w1 w2,
    persisted_write fromKey toKey item s1 = Some w1 →
    persisted_write fromKey toKey item s2 = Some w2 →
    w1 !! fromKey = w2 !! fromKey ∧ w1 !! toKey = w2 !! toKey.

Definition is_read (c : call) : bool :=
  match c with CGet _ | CGetAll | CGetDefaults _ => true | _ => false end.

(** The number of reads in a log of adapter calls. *)
Definition reads (t : list call) : nat :=
  length (filter (λ c, is_read c = true) t).

(** After a completed write of [items]: the cache is the object that was
    just persisted, [items] are part of it, and the backing store holds it. *)
Definition mirrors_write (items : obj) (s' : state) : Prop :=
  ∃ w, last_write (trace s') = Some w ∧ cache s' = Some w
       ∧ items ⊆ w ∧ w ⊆ store s'.

(** A sequence of [set] calls issued through the queue, with their results. *)
Fixpoint run_sets (calls : list obj) (s : state) : list (res unit) * state :=
  match calls with
  | [] => ([], s)
  | items :: rest =>
      let (r, s1) := set items s in
      let (rs, s2) := run_sets rest s1 in
      (r :: rs, s2)
  end.

(** The calls of a sequence that completed. *)
Fixpoint completed (calls : list obj) (rs : list (res unit)) : list obj :=
  match calls, rs with
  | items :: calls', Ok _ :: rs' => items :: completed calls' rs'
  | _ :: calls', Err _ :: rs' => completed calls' rs'
  | _, _ => []
  end.

(** The value given to [k] by the last call of [calls] that included [k]. *)
Definition last_set_value (k : string) (calls : list obj) : option value :=
  foldl (λ acc items, match items !! k with Some v => Some v | None => acc end)
        None calls.

(** Once the ready flag is set the cache is an object, not [null]. *)
Definition cache_ready (s : state) : Prop :=
  initialized s = true → is_Some (cache s).

(** A manager on which nothing fails: initialized, chain fulfilled, and no
    rejection among the adapter outcomes to come. *)
Definition healthy (s : state) : Prop :=
  initialized s = true ∧ queue s = None ∧ Forall (λ o, o = None) (script s).

(** The events of the attempts on one chunk from attempt number [a] on, and
    whether the chunk was written in the end. *)
Inductive retry_from (c : pend) : Z → list flush_event → bool → Prop :=
| retry_written a :
    retry_from c a [Attempt c a true] true
| retry_again a evs ok :
    a < 3 → retry_from c (a + 1) evs ok →
    retry_from c a (Attempt c a false :: Backoff (100 * 2 ^ (a - 1)) :: evs) ok
| retry_exhausted a :
    ¬ a < 3 → retry_from c a [Attempt c a false] false.

(** The same in the spec's words: a chunk is tried at most three times,
    100ms and then 200ms apart, before it is declared permanently failed. *)
Inductive retry_round (c : pend) : list flush_event → bool → Prop :=
| round_first :
    retry_round c [Attempt c 1 true] true
| round_second :
    retry_round c [Attempt c 1 false; Backoff 100; Attempt c 2 true] true
| round_third :
    retry_round c [Attempt c 1 false; Backoff 100; Attempt c 2 false;
                   Backoff 200; Attempt c 3 true] true
| round_failed :
    retry_round c [Attempt c 1 false; Backoff 100; Attempt c 2 false;
                   Backoff 200; Attempt c 3 false] false.

(** The events of a flush of [snapshot] in the spec's words: the snapshot is
    cut into consecutive chunks of at most 20 entries, written one after the
    other, and the flush stops at the first chunk that fails for good. *)
Inductive flush_rounds : pend → list flush_event → bool → Prop :=
| rounds_done :
    flush_rounds [] [] true
| rounds_next snapshot evs evs' ok :
    snapshot ≠ [] →
    retry_round (take 20 snapshot) evs true →
    flush_rounds (drop 20 snapshot) evs' ok →
    flush_rounds snapshot (evs ++ evs') ok
| rounds_abort snapshot evs :
    snapshot ≠ [] →
    retry_round (take 20 snapshot) evs false →
    flush_rounds snapshot evs false.

(** The entries a flush has written, in the order it wrote them. *)
Definition written (evs : list flush_event) : pend :=
  concat (omap (λ e, match e with Attempt c _ true => Some c | _ => None end) evs).

(** What part of a flush does to the worker besides writing: it logs [evs],
    takes the batches [consumed] out of the environment and merges them into
    the buffer in order; the in-progress flag is not touched. *)
Definition flush_step (b b' : bg) (evs : list flush_event) (consumed : list pend) : Prop :=
  flushLog b' = (flushLog b ++ evs)%list
  ∧ arrivals b = (consumed ++ arrivals b')%list
  ∧ pendingWrites b' = foldl spread (pendingWrites b) consumed
  ∧ flushInProgress b' = flushInProgress b.

(** A buffer stands for a JavaScript object: no key occurs twice. *)
Definition wf_pend (p : pend) : Prop := NoDup (keys p).

(** Sample states used to exercise the statements. *)
Definition sample_cache : obj :=
  <["knownWords" := VArr ["hello"]]>
    (<["unknownWords" := VArr []]> (<["isActive" := VBool true]> ∅)).

Definition sample_state : state :=
  mkState (Some sample_cache) true None sample_cache [] [].

(** A manager whose cache still lists two words after another context has
    emptied the backing store, and one whose cache is empty as well. *)
Definition stale_state : state :=
  mkState (Some {["unknownWords" := VArr ["hello"; "world"]]}) true None ∅ [] [].

Definition fresh_state : state :=
  mkState (Some ∅) true None ∅ [] [].

(** A manager whose cache holds an older value of a third key than the
    backing store does. *)
Definition outdated_state : state :=
  mkState (Some (<["theme" := VStr "light"]> {["unknownWords" := VArr ["hello"]]}))
          true None
          (<["theme" := VStr "dark"]> {["unknownWords" := VArr ["hello"]]}) [] [].

(** A worker with one buffered write whose manager's backing store rejects the
    next call, while a [set] request for two keys arrives during the flush. *)
Definition failing_background : bg :=
  mkBg [("a", VNum 1)] None false (mkMetrics 0 0 None None) 100
       (with_script [Some "quota exceeded"] sample_state) 0
       [[("a", VNum 2); ("b", VNum 3)]] [].

(** * Properties *)

(** ** Tactics for running the monadic bodies *)

Ltac unfold_ops :=
  unfold get, set, update, moveToSet, initialize, clear, export,
    enqueue, enqueue_caught, get_body, update_body, moveToSet_body,
    initialize_body, storage_get_schema, _setInternal, cache_lookup,
    storage_get, storage_get_all, storage_get_defaults, storage_set,
    storage_clear, adapter, throw, get_state, modify, lift_res,
    mbind, mret, M_bind, M_ret in *.

(** ** Reading from the cache *)

Lemma get_result_lookup (c : obj) (ks : list string) (k : string)
    (acc : gmap string (option value)) :
  foldl (λ result key, <[key := c !! key]> result) acc ks !! k
  = if decide (k ∈ ks) then Some (c !! k) else acc !! k.
Proof.
  revert acc. induction ks as [|k0 ks IH]; intros acc; cbn [foldl].
  - destruct (decide (k ∈ [])) as [H|H]; [by apply elem_of_nil in H | done].
  - rewrite IH. destruct (decide (k ∈ ks)) as [Hin|Hin].
    + destruct (decide (k ∈ k0 :: ks)) as [H|H]; [done|].
      exfalso; apply H; by right.
    + destruct (decide (k = k0)) as [->|Hne].
      * rewrite lookup_insert_eq.
        destruct (decide (k0 ∈ k0 :: ks)) as [H|H]; [done|].
        exfalso; apply H; by left.
      * rewrite lookup_insert_ne by done.
        destruct (decide (k ∈ k0 :: ks)) as [H|H]; [|done].
        apply elem_of_cons in H as [?|?]; done.
Qed.

(** C9: a [get] whose body runs before [initialize] has set the ready flag
    fails with the uninitialized error and touches neither the cache nor the
    adapter; once initialized it answers, for every requested key, the cache's
    current value, a key absent from the cache being bound to [undefined]
    (no error), and nothing but the requested keys. *)
Theorem get_reads_cache_once_initialized (keys : keys_arg) (s : state) :
  queue s = None →
  (initialized s = false →
     ∃ s', get keys s = (Err NotInitialized, s')
           ∧ cache s' = cache s ∧ store s' = store s ∧ trace s' = trace s)
  ∧ (∀ c, initialized s = true → cache s = Some c →
     ∃ result, get keys s = (Ok result, s)
       ∧ (∀ k, k ∈ key_list keys → result !! k = Some (c !! k))
       ∧ (∀ k, k ∈ key_list keys → c !! k = None → result !! k = Some None)
       ∧ (∀ k, k ∉ key_list keys → result !! k = None)).
Proof.
  intros Hq. split.
  - intros Hi. unfold_ops. rewrite Hq, Hi. simpl. eauto.
  - intros c Hi Hc. unfold_ops. rewrite Hq, Hi, Hc. simpl.
    eexists. split.
    + destruct s; simpl in *; subst; reflexivity.
    + repeat split; intros k Hk.
      * rewrite get_result_lookup. by rewrite decide_True.
      * intros Hnone. rewrite get_result_lookup, decide_True by done.
        by rewrite Hnone.
      * rewrite get_result_lookup. by rewrite decide_False.
Qed.

Lemma get_reads_cache_once_initialized_witness :
  (∃ s', get (KArr ["knownWords"; "missing"]) (new_StorageManager ∅ [])
         = (Err NotInitialized, s'))
  ∧ (∃ result, get (KArr ["knownWords"; "missing"]) sample_state
               = (Ok result, sample_state)
       ∧ result !! "missing" = Some None).
Proof.
  split.
  - destruct (get_reads_cache_once_initialized
                (KArr ["knownWords"; "missing"]) (new_StorageManager ∅ []) eq_refl)
      as [H _].
    destruct (H eq_refl) as (s' & Hs' & _). exists s'. exact Hs'.
  - destruct (get_reads_cache_once_initialized
                (KArr ["knownWords"; "missing"]) sample_state eq_refl)
      as [_ H].
    destruct (H sample_cache eq_refl eq_refl) as (r & Hr & _ & Habs & _).
    exists r. split; [exact Hr|].
    apply Habs; [set_solver | reflexivity].
Defined.

(** ** The promise chain *)

Lemma enqueue_rejected {A} (body : M A) (s : state) (e : error) :
  queue s = Some e → enqueue body s = (Err e, s).
Proof. intros Hq. unfold enqueue. by rewrite Hq. Qed.

Lemma enqueue_runs {A} (body : M A) (s : state) :
  queue s = None →
  enqueue body s =
    ((body s).1,
     with_queue (match (body s).1 with Ok _ => None | Err e => Some e end) (body s).2).
Proof. intros Hq. unfold enqueue. rewrite Hq. by destruct (body s). Qed.

(** Once a body queued with [enqueue] has thrown, the next queued body is
    skipped and its caller receives the earlier error. *)
Lemma rejected_chain_skips_next {A B} (x : M A) (y : M B) (s : state) (e : error) :
  queue s = None → (x s).1 = Err e →
  enqueue y (enqueue x s).2 = (Err e, (enqueue x s).2).
Proof.
  intros Hq Hx. apply enqueue_rejected.
  rewrite enqueue_runs by done. simpl. by rewrite Hx.
Qed.

(** [moveToSet] always leaves the chain fulfilled. *)
Lemma moveToSet_leaves_chain_fulfilled (fromKey toKey item : string) (s : state) :
  queue (moveToSet fromKey toKey item s).2 = None.
Proof.
  unfold moveToSet, enqueue_caught. destruct (queue s); [done|].
  by destruct (moveToSet_body fromKey toKey item s).
Qed.

(** C1, at the failing input: on an initialized manager whose backing store
    rejects the write, [set] fails with the adapter's error, and a [get], a
    [set] and an [update] issued afterwards are all answered with that same
    error without their bodies running (no adapter call is logged, the state
    is untouched), although the body of that [get] would have succeeded;
    only a [moveToSet] resets the chain. *)
Theorem failed_set_blocks_later_operations :
  let s0 := with_script [None; Some "quota exceeded"] sample_state in
  let s1 := (set {["a" := VNum 1]} s0).2 in
  (set {["a" := VNum 1]} s0).1 = Err (AdapterFailure "quota exceeded")
  ∧ script s1 = []
  ∧ get (KStr "isActive") s1 = (Err (AdapterFailure "quota exceeded"), s1)
  ∧ is_ok (get_body (KStr "isActive") s1).1 = true
  ∧ set {["b" := VNum 2]} s1 = (Err (AdapterFailure "quota exceeded"), s1)
  ∧ update "b" (λ _, Ok (VNum 2)) s1 = (Err (AdapterFailure "quota exceeded"), s1)
  ∧ is_ok (get (KStr "isActive") (moveToSet "x" "y" "w" s1).2).1 = true.
Proof. vm_compute. repeat split. Qed.

(** ** The two-set move *)

Lemma restrict_lookup (ks : list string) (m : obj) (k : string) :
  restrict ks m !! k = if decide (k ∈ ks) then m !! k else None.
Proof.
  unfold restrict. destruct (decide (k ∈ ks)) as [Hin|Hin].
  - destruct (m !! k) as [v|] eqn:Hm.
    + apply map_lookup_filter_Some. by split.
    + apply map_lookup_filter_None. left. done.
  - apply map_lookup_filter_None. right. intros v _. done.
Qed.

Lemma pick_array_restrict (ks : list string) (m : obj) (c : option obj) (k : string) :
  k ∈ ks → pick_array (restrict ks m) c k = pick_array m c k.
Proof.
  intros Hin. unfold pick_array. rewrite restrict_lookup.
  by rewrite decide_True.
Qed.

Lemma adapter_eq (c : call) (s : state) :
  adapter c s =
    (match head (script s) with
     | Some (Some msg) => Err (AdapterFailure msg)
     | _ => Ok tt
     end, after_call c s).
Proof.
  unfold adapter, after_call. destruct s as [? ? ? ? scr ?]; simpl.
  destruct scr as [|[msg|] rest]; reflexivity.
Qed.

Lemma moveToSet_body_eq (fromKey toKey item : string) (s : state) :
  moveToSet_body fromKey toKey item s =
    let s1 := after_call (CGet [fromKey; toKey]) s in
    if next_resolves s then
      match view s fromKey, view s toKey with
      | Ok fs, Ok ts =>
          match pick_array (store s) (cache s) toKey with
          | Err e => (Err e, s1)
          | Ok _ =>
              if initialized s then
                let merged := move_items fromKey toKey item fs ts ∪ default ∅ (cache s) in
                let s2 := after_call (CSet merged) s1 in
                if next_resolves s1
                then (Ok tt, with_cache (Some merged) (with_store (merged ∪ store s) s2))
                else (Err (match head (script s1) with
                           | Some (Some msg) => AdapterFailure msg
                           | _ => TypeError
                           end), s2)
              else (Err NotInitialized, s1)
          end
      | Err e, _ =>
          (Err (match pick_array (store s) (cache s) fromKey with
                | Err e' => e'
                | Ok _ => match pick_array (store s) (cache s) toKey with
                          | Err e' => e'
                          | Ok _ => e
                          end
                end), s1)
      | Ok _, Err e => (Err e, s1)
      end
    else (Err (match head (script s) with
               | Some (Some msg) => AdapterFailure msg
               | _ => TypeError
               end), s1).
Proof.
  unfold moveToSet_body, storage_get, view, next_resolves.
  unfold mbind, M_bind, mret, M_ret, get_state, lift_res.
  rewrite adapter_eq.
  destruct (head (script s)) as [[msg|]|] eqn:Hh; simpl; try reflexivity.
  all: rewrite !pick_array_restrict by set_solver.
  all: destruct (pick_array (store s) (cache s) fromKey) as [fa|e1]; [|reflexivity].
  all: destruct (pick_array (store s) (cache s) toKey) as [ta|e2]; simpl.
  all: try (destruct (new_Set fa); reflexivity).
  all: destruct (new_Set fa) as [fs|e3]; [|reflexivity].
  all: destruct (new_Set ta) as [ts|e4]; [|reflexivity].
  all: unfold _setInternal, storage_set, throw, modify.
  all: unfold mbind, M_bind, mret, M_ret, get_state.
  all: simpl; destruct (initialized s) eqn:Hi; simpl; [|reflexivity].
  all: rewrite adapter_eq; simpl.
  all: fold (move_items fromKey toKey item fs ts).
  all: destruct (tail (script s)) as [|[m|] r]; reflexivity.
Qed.

Lemma elem_of_set_add (x y : string) (s : list string) :
  y ∈ set_add x s ↔ y = x ∨ y ∈ s.
Proof.
  unfold set_add. destruct (decide (x ∈ s)) as [Hin|Hin].
  - split; [by right | intros [->|?]; done].
  - split.
    + intros [?|Hy]%elem_of_app; [by right|].
      apply list_elem_of_singleton in Hy. by left.
    + intros [->|?]; apply elem_of_app; [right; by apply list_elem_of_singleton | by left].
Qed.

Lemma elem_of_set_delete (x y : string) (s : list string) :
  y ∈ set_delete x s ↔ y ≠ x ∧ y ∈ s.
Proof. unfold set_delete. exact (list_elem_of_filter (λ z, z ≠ x) s y). Qed.

Lemma set_delete_absent (x : string) (s : list string) :
  x ∉ s → set_delete x s = s.
Proof.
  unfold set_delete. induction s as [|y s IH]; intros Hx; [done|].
  apply not_elem_of_cons in Hx as [Hne Hx].
  rewrite filter_cons_True by done. by rewrite IH.
Qed.

Lemma elem_of_set_of_list (y : string) (l : list string) :
  y ∈ set_of_list l ↔ y ∈ l.
Proof.
  unfold set_of_list.
  assert (∀ acc, y ∈ foldl (λ s x, set_add x s) acc l ↔ y ∈ acc ∨ y ∈ l) as H.
  { induction l as [|x l IH]; intros acc; simpl.
    - rewrite elem_of_nil. tauto.
    - rewrite IH, elem_of_set_add, elem_of_cons. tauto. }
  rewrite H, elem_of_nil. tauto.
Qed.

Lemma move_items_to (fromKey toKey item : string) (fs ts : list string) (base : obj) :
  (move_items fromKey toKey item fs ts ∪ base) !! toKey = Some (VArr (set_add item ts)).
Proof.
  unfold move_items. apply lookup_union_Some_l. apply lookup_insert_eq.
Qed.

Lemma move_items_from (fromKey toKey item : string) (fs ts : list string) (base : obj) :
  fromKey ≠ toKey →
  (move_items fromKey toKey item fs ts ∪ base) !! fromKey
  = Some (VArr (set_delete item fs)).
Proof.
  intros Hne. unfold move_items. apply lookup_union_Some_l.
  rewrite lookup_insert_ne by done. apply lookup_insert_eq.
Qed.

Lemma move_items_other (fromKey toKey item : string) (fs ts : list string)
    (base : obj) (k : string) :
  k ≠ fromKey → k ≠ toKey →
  (move_items fromKey toKey item fs ts ∪ base) !! k = base !! k.
Proof.
  intros H1 H2. unfold move_items. rewrite lookup_union_r; [done|].
  rewrite !lookup_insert_ne by done. apply lookup_empty.
Qed.

(** A successful [moveToSet]: what ran and what it left behind. *)
Lemma moveToSet_ok_inv (fromKey toKey item : string) (s s' : state) (u : unit) :
  moveToSet fromKey toKey item s = (Ok u, s') →
  queue s = None ∧ initialized s = true ∧ resolves_twice s = true ∧
  ∃ fs ts, view s fromKey = Ok fs ∧ view s toKey = Ok ts ∧
    let merged := move_items fromKey toKey item fs ts ∪ default ∅ (cache s) in
    cache s' = Some merged ∧ store s' = merged ∪ store s
    ∧ trace s' = (trace s ++ [CGet [fromKey; toKey]; CSet merged])%list
    ∧ initialized s' = true ∧ queue s' = None.
Proof.
  unfold moveToSet, enqueue_caught. destruct (queue s) eqn:Hq; [done|].
  rewrite moveToSet_body_eq. cbv zeta.
  destruct (next_resolves s) eqn:Hr1; [|done].
  destruct (view s fromKey) as [fs|]; [|done].
  destruct (view s toKey) as [ts|]; [|done].
  destruct (pick_array (store s) (cache s) toKey); [|done].
  destruct (initialized s) eqn:Hi; [|done].
  destruct (next_resolves (after_call _ s)) eqn:Hr2; [|done].
  intros H. injection H as <- <-.
  repeat split; try done.
  { unfold resolves_twice. rewrite Hr1. exact Hr2. }
  exists fs, ts. repeat split; try done.
  simpl. by rewrite <- (assoc_L (++)).
Qed.

(** A failed [moveToSet] changes neither the cache nor the backing store. *)
Lemma moveToSet_err_inv (fromKey toKey item : string) (s s' : state) (e : error) :
  moveToSet fromKey toKey item s = (Err e, s') →
  cache s' = cache s ∧ store s' = store s ∧ initialized s' = initialized s.
Proof.
  unfold moveToSet, enqueue_caught. destruct (queue s) eqn:Hq.
  { by intros [= _ <-]. }
  rewrite moveToSet_body_eq. cbv zeta.
  destruct (next_resolves s); [|by intros [= _ <-]].
  destruct (view s fromKey) as [fs|]; [|by intros [= _ <-]].
  destruct (view s toKey) as [ts|]; [|by intros [= _ <-]].
  destruct (pick_array (store s) (cache s) toKey); [|by intros [= _ <-]].
  destruct (initialized s) eqn:Hi; [|by intros [= _ <-]].
  destruct (next_resolves _); [done|by intros [= _ <-]].
Qed.

(** When nothing stands in its way a [moveToSet] succeeds. *)
Lemma moveToSet_progress (fromKey toKey item : string) (s : state)
    (fs ts : list string) :
  queue s = None → initialized s = true → resolves_twice s = true →
  view s fromKey = Ok fs → view s toKey = Ok ts →
  ∃ s', moveToSet fromKey toKey item s = (Ok tt, s').
Proof.
  intros Hq Hi Hr Hf Ht. unfold moveToSet, enqueue_caught. rewrite Hq.
  rewrite moveToSet_body_eq. cbv zeta. rewrite Hf, Ht, Hi.
  unfold resolves_twice in Hr. apply andb_true_iff in Hr as [Hr1 Hr2].
  rewrite Hr1.
  assert (next_resolves (after_call (CGet [fromKey; toKey]) s) = true) as ->.
  { exact Hr2. }
  unfold view in Ht. destruct (pick_array (store s) (cache s) toKey); [|done].
  eauto.
Qed.

Lemma members_lookup (o : obj) (k : string) (l : list string) :
  o !! k = Some (VArr l) → members (Some o) k = l.
Proof. intros H. unfold members. by rewrite H. Qed.

Lemma view_of_array (s : state) (k : string) (l : list string) :
  store s !! k = Some (VArr l) → view s k = Ok (set_of_list l).
Proof. intros H. unfold view, pick_array. by rewrite H. Qed.

(** C2 as stated fails when both keys name the same set: the item is then
    written back into the set it was taken from. *)
Lemma move_within_one_set_keeps_item :
  ¬ move_ends_in_exactly_one "knownWords" "knownWords" "hello" sample_state.
Proof.
  intros H.
  destruct (H (moveToSet "knownWords" "knownWords" "hello" sample_state).2) as [_ Hn].
  - vm_compute. reflexivity.
  - apply Hn. vm_compute. apply list_elem_of_here.
Qed.

(** C2, amended: a [moveToSet] whose persist succeeds leaves the item in the
    destination's set and, when the two keys differ, out of the source's set,
    in the cache and in the backing store alike; a [moveToSet] that fails
    leaves the cache and the backing store as they were, and it does fail
    whenever its persist call is rejected. *)
Theorem moveToSet_moves_or_changes_nothing
    (fromKey toKey item : string) (s s' : state) (r : res unit) :
  moveToSet fromKey toKey item s = (r, s') →
  match r with
  | Ok _ =>
      item ∈ members (cache s') toKey
      ∧ item ∈ members (Some (store s')) toKey
      ∧ (fromKey ≠ toKey →
         (item ∉ members (cache s') fromKey)
         ∧ (item ∉ members (Some (store s')) fromKey))
  | Err _ => cache s' = cache s ∧ store s' = store s
  end
  ∧ (∀ o msg rest, script s = o :: Some msg :: rest → is_ok r = false).
Proof.
  intros Hrun. split.
  - destruct r as [u|e].
    + apply moveToSet_ok_inv in Hrun
        as (_ & _ & _ & fs & ts & _ & _ & Hc & Hs & _).
      cbv zeta in Hc, Hs. rewrite Hc, Hs.
      split; [|split].
      * rewrite (members_lookup _ _ _ (move_items_to _ _ _ _ _ _)).
        apply elem_of_set_add. by left.
      * erewrite members_lookup.
        2:{ apply lookup_union_Some_l. apply move_items_to. }
        apply elem_of_set_add. by left.
      * intros Hne. split.
        -- rewrite (members_lookup _ _ _ (move_items_from _ _ _ _ _ _ Hne)).
           rewrite elem_of_set_delete. tauto.
        -- erewrite members_lookup.
           2:{ apply lookup_union_Some_l. by apply move_items_from. }
           rewrite elem_of_set_delete. tauto.
    + apply moveToSet_err_inv in Hrun as (? & ? & _). done.
  - intros o msg rest Hscr. destruct r as [u|e]; [|done].
    apply moveToSet_ok_inv in Hrun as (_ & _ & Hr & _).
    unfold resolves_twice, next_resolves in Hr. rewrite Hscr in Hr. simpl in Hr.
    by rewrite andb_false_r in Hr.
Qed.

Lemma moveToSet_moves_or_changes_nothing_witness :
  let s' := (moveToSet "knownWords" "unknownWords" "hello" sample_state).2 in
  "hello" ∈ members (cache s') "unknownWords"
  ∧ "hello" ∉ members (cache s') "knownWords".
Proof.
  intros s'.
  assert (moveToSet "knownWords" "unknownWords" "hello" sample_state = (Ok tt, s'))
    as Hrun by (vm_compute; reflexivity).
  destruct (moveToSet_moves_or_changes_nothing _ _ _ _ _ _ Hrun) as [Hok _].
  destruct Hok as (Hto & _ & Hfrom).
  split; [exact Hto|]. apply Hfrom. discriminate.
Defined.

(** C10 as stated fails when both keys name the same set: the source then
    gains the item. *)
Lemma absent_item_joins_its_own_source :
  ¬ absent_item_leaves_source "knownWords" "knownWords" "world" sample_state.
Proof.
  intros H. destruct (H ["hello"]) as (s' & Hrun & _ & Hsame).
  - vm_compute. reflexivity.
  - intros Hin. apply elem_of_cons in Hin as [Heq|Hin]; [discriminate|].
    by apply elem_of_nil in Hin.
  - assert (s' = (moveToSet "knownWords" "knownWords" "world" sample_state).2)
      as -> by (by rewrite Hrun).
    assert ("world" ∈ ["hello"]) as Hin.
    { apply Hsame. vm_compute. apply list_elem_of_further, list_elem_of_here. }
    apply elem_of_cons in Hin as [Heq|Hin]; [discriminate|].
    by apply elem_of_nil in Hin.
Qed.

(** C10, amended: on an initialized manager whose chain is fulfilled and
    whose two adapter calls resolve, a [moveToSet] of an item that step 1 does
    not find in the source's set succeeds all the same; the item is in the
    destination's set afterwards and, when the two keys differ, the source's
    set is exactly the set step 1 built for it. *)
Theorem moveToSet_of_absent_item_succeeds
    (fromKey toKey item : string) (s : state) (fs ts : list string) :
  queue s = None → initialized s = true → resolves_twice s = true →
  view s fromKey = Ok fs → view s toKey = Ok ts → item ∉ fs →
  ∃ s', moveToSet fromKey toKey item s = (Ok tt, s')
    ∧ members (cache s') toKey = set_add item ts
    ∧ item ∈ members (cache s') toKey
    ∧ item ∈ members (Some (store s')) toKey
    ∧ (fromKey ≠ toKey →
       members (cache s') fromKey = fs ∧ members (Some (store s')) fromKey = fs).
Proof.
  intros Hq Hi Hr Hf Ht Hnot.
  destruct (moveToSet_progress fromKey toKey item s fs ts) as [s' Hrun]; try done.
  exists s'. split; [done|].
  pose proof Hrun as Hinv.
  apply moveToSet_ok_inv in Hinv
    as (_ & _ & _ & fs' & ts' & Hf' & Ht' & Hc & Hs & _).
  rewrite Hf in Hf'. rewrite Ht in Ht'.
  injection Hf' as <-. injection Ht' as <-.
  cbv zeta in Hc, Hs. rewrite Hc, Hs.
  rewrite (members_lookup _ _ _ (move_items_to _ _ _ _ _ _)).
  split; [done|]. split; [apply elem_of_set_add; by left|]. split.
  - erewrite members_lookup.
    2:{ apply lookup_union_Some_l. apply move_items_to. }
    apply elem_of_set_add. by left.
  - intros Hne.
    rewrite (members_lookup _ _ _ (move_items_from _ _ _ _ _ _ Hne)).
    erewrite members_lookup.
    2:{ apply lookup_union_Some_l. by apply move_items_from. }
    by rewrite set_delete_absent.
Qed.

Lemma moveToSet_of_absent_item_succeeds_witness :
  ∃ s', moveToSet "unknownWords" "knownWords" "world" sample_state = (Ok tt, s')
    ∧ members (cache s') "knownWords" = ["hello"; "world"]
    ∧ members (cache s') "unknownWords" = [].
Proof.
  destruct (moveToSet_of_absent_item_succeeds
              "unknownWords" "knownWords" "world" sample_state [] ["hello"])
    as (s' & Hrun & Hto & _ & _ & Hfrom).
  - reflexivity.
  - reflexivity.
  - reflexivity.
  - vm_compute. reflexivity.
  - vm_compute. reflexivity.
  - intros Hin. by apply elem_of_nil in Hin.
  - exists s'. split; [exact Hrun|]. split; [exact Hto|].
    apply Hfrom. discriminate.
Defined.

(** C7 as stated fails for a word that is in neither set: the round trip
    leaves it in the first one. *)
Lemma round_trip_adds_unlisted_word :
  ¬ round_trip_restores "unknownWords" "knownWords" "world" sample_state.
Proof.
  intros H.
  set (s1 := (moveToSet "unknownWords" "knownWords" "world" sample_state).2).
  set (s2 := (moveToSet "knownWords" "unknownWords" "world" s1).2).
  destruct (H s1 s2 [] ["hello"]) as [HA _]; try (vm_compute; reflexivity).
  assert ("world" ∈ @nil string) as Hin.
  { apply HA. vm_compute. apply list_elem_of_here. }
  by apply elem_of_nil in Hin.
Qed.

(** C7, amended: when step 1 finds the item in the first set and not in the
    second, [moveToSet(A, B, x)] followed at once by [moveToSet(B, A, x)],
    both succeeding, leaves each of the two sets with the members it had, in
    the cache and in the backing store. *)
Theorem moveToSet_round_trip
    (A B x : string) (s s1 s2 : state) (fa fb : list string) :
  view s A = Ok fa → view s B = Ok fb → x ∈ fa → x ∉ fb →
  moveToSet A B x s = (Ok tt, s1) → moveToSet B A x s1 = (Ok tt, s2) →
  ∀ y,
    (y ∈ members (cache s2) A ↔ y ∈ fa) ∧ (y ∈ members (cache s2) B ↔ y ∈ fb)
    ∧ (y ∈ members (Some (store s2)) A ↔ y ∈ fa)
    ∧ (y ∈ members (Some (store s2)) B ↔ y ∈ fb).
Proof.
  intros HA HB Hin Hnot Hrun1 Hrun2 y.
  assert (A ≠ B) as Hne.
  { intros ->. rewrite HA in HB. injection HB as ->. done. }
  apply moveToSet_ok_inv in Hrun1
    as (_ & _ & _ & fa' & fb' & HA' & HB' & _ & Hs1 & _).
  rewrite HA in HA'. rewrite HB in HB'.
  injection HA' as <-. injection HB' as <-. cbv zeta in Hs1.
  assert (store s1 !! A = Some (VArr (set_delete x fa))) as HsA.
  { rewrite Hs1. apply lookup_union_Some_l. by apply move_items_from. }
  assert (store s1 !! B = Some (VArr (set_add x fb))) as HsB.
  { rewrite Hs1. apply lookup_union_Some_l. apply move_items_to. }
  apply moveToSet_ok_inv in Hrun2
    as (_ & _ & _ & gb & ga & HB2 & HA2 & Hc2 & Hs2 & _).
  rewrite (view_of_array _ _ _ HsB) in HB2.
  rewrite (view_of_array _ _ _ HsA) in HA2.
  injection HB2 as <-. injection HA2 as <-. cbv zeta in Hc2, Hs2.
  rewrite Hc2, Hs2.
  rewrite (members_lookup _ _ _ (move_items_to _ _ _ _ _ _)).
  rewrite (members_lookup _ _ _ (move_items_from _ _ _ _ _ _ (not_eq_sym Hne))).
  erewrite (members_lookup _ A).
  2:{ apply lookup_union_Some_l. apply move_items_to. }
  erewrite (members_lookup _ B).
  2:{ apply lookup_union_Some_l. by apply move_items_from. }
  rewrite elem_of_set_add, elem_of_set_delete, !elem_of_set_of_list.
  rewrite elem_of_set_add, elem_of_set_delete.
  destruct (decide (y = x)) as [->|Hy]; tauto.
Qed.

Lemma moveToSet_round_trip_witness :
  let s1 := (moveToSet "knownWords" "unknownWords" "hello" sample_state).2 in
  let s2 := (moveToSet "unknownWords" "knownWords" "hello" s1).2 in
  ("hello" ∈ members (cache s2) "knownWords" ↔ "hello" ∈ ["hello"])
  ∧ ("hello" ∈ members (cache s2) "unknownWords" ↔ "hello" ∈ @nil string).
Proof.
  intros s1 s2.
  assert ("hello" ∈ ["hello"]) as Hin by apply list_elem_of_here.
  assert ("hello" ∉ @nil string) as Hnot by (intros H; by apply elem_of_nil in H).
  destruct (moveToSet_round_trip "knownWords" "unknownWords" "hello"
              sample_state s1 s2 ["hello"] [])
    with (y := "hello") as (H1 & H2 & _);
    try (vm_compute; reflexivity); try assumption.
  split; assumption.
Defined.

(** The adapter calls of one [moveToSet]: none when the chain was rejected,
    else the step-1 read, followed by the persist when the body got there. *)
Lemma moveToSet_calls (fromKey toKey item : string) (s s' : state) (r : res unit) :
  moveToSet fromKey toKey item s = (r, s') →
  ∃ calls, trace s' = (trace s ++ calls)%list
    ∧ (calls = [] ∨ calls = [CGet [fromKey; toKey]]
       ∨ ∃ w, calls = [CGet [fromKey; toKey]; CSet w]).
Proof.
  unfold moveToSet, enqueue_caught. destruct (queue s) eqn:Hq.
  { intros [= _ <-]. exists []. split; [by rewrite app_nil_r | by left]. }
  rewrite moveToSet_body_eq. cbv zeta.
  assert (∀ w, trace (after_call (CSet w) (after_call (CGet [fromKey; toKey]) s))
               = (trace s ++ [CGet [fromKey; toKey]; CSet w])%list) as Hpersist.
  { intros w. simpl. by rewrite <- (assoc_L (++)). }
  destruct (next_resolves s);
    [|intros [= _ <-]; exists [CGet [fromKey; toKey]]; split; [done | right; by left]].
  destruct (view s fromKey) as [fs|];
    [|intros [= _ <-]; exists [CGet [fromKey; toKey]]; split; [done | right; by left]].
  destruct (view s toKey) as [ts|];
    [|intros [= _ <-]; exists [CGet [fromKey; toKey]]; split; [done | right; by left]].
  destruct (pick_array (store s) (cache s) toKey);
    [|intros [= _ <-]; exists [CGet [fromKey; toKey]]; split; [done | right; by left]].
  destruct (initialized s);
    [|intros [= _ <-]; exists [CGet [fromKey; toKey]]; split; [done | right; by left]].
  destruct (next_resolves (after_call _ s)); intros [= _ <-];
    eexists; (split; [apply Hpersist | right; right; eauto]).
Qed.

(** C3 as stated fails: two managers that get the same answer from the
    step-1 read (here an empty one) persist different source sets, because
    both the fallback for a key the read did not return and the base of the
    merge are the cache. *)
Lemma write_follows_cache_not_step1_read :
  ¬ write_determined_by_step1_read "unknownWords" "knownWords" "hello"
      stale_state fresh_state.
Proof.
  intros H.
  destruct (H eq_refl
              (<["knownWords" := VArr ["hello"]]>
                 (<["unknownWords" := VArr ["world"]]> ∅))
              (<["knownWords" := VArr ["hello"]]>
                 (<["unknownWords" := VArr []]> ∅))) as [Hfrom _].
  - vm_compute. reflexivity.
  - vm_compute. reflexivity.
  - vm_compute in Hfrom. discriminate.
Qed.

(** The write of a [moveToSet] carries every key of the cache with it: a
    value another context has stored since is overwritten by the cached one. *)
Lemma moveToSet_writes_back_cached_keys :
  store outdated_state !! "theme" = Some (VStr "dark")
  ∧ store (moveToSet "unknownWords" "knownWords" "hello" outdated_state).2 !! "theme"
    = Some (VStr "light").
Proof. split; vm_compute; reflexivity. Qed.

(** C3, amended: a [moveToSet] makes at most one adapter read, the step-1
    read of the two keys; when it succeeds its adapter calls are exactly
    that read followed by one write, with no second read.  The object written
    is the two new sets merged over the cache (not over a snapshot of the
    backing store); each of the two sets is computed from the value the
    step-1 read returned when that is an array, and from the cache's value
    when the read returned nothing truthy for the key. *)
Theorem moveToSet_reads_once_merges_over_cache
    (fromKey toKey item : string) (s s' : state) (r : res unit) :
  moveToSet fromKey toKey item s = (r, s') →
  (∃ calls, trace s' = (trace s ++ calls)%list ∧ (reads calls ≤ 1)%nat)
  ∧ (is_ok r = true →
     ∃ fs ts,
       view s fromKey = Ok fs ∧ view s toKey = Ok ts
       ∧ trace s' = (trace s ++
           [CGet [fromKey; toKey];
            CSet (move_items fromKey toKey item fs ts ∪ default ∅ (cache s))])%list
       ∧ (∀ l, store s !! fromKey = Some (VArr l) → fs = set_of_list l)
       ∧ (∀ l, store s !! toKey = Some (VArr l) → ts = set_of_list l)
       ∧ (truthy (store s !! fromKey) = false →
          pick_array (store s) (cache s) fromKey
          = pick_array ∅ (cache s) fromKey)
       ∧ (truthy (store s !! toKey) = false →
          pick_array (store s) (cache s) toKey
          = pick_array ∅ (cache s) toKey)).
Proof.
  intros Hrun. split.
  - destruct (moveToSet_calls _ _ _ _ _ _ Hrun) as (calls & Ht & Hc).
    exists calls. split; [done|].
    destruct Hc as [->|[->|[w ->]]]; vm_compute; lia.
  - intros Hok. destruct r as [[]|]; [|done].
    apply moveToSet_ok_inv in Hrun
      as (_ & _ & _ & fs & ts & Hf & Ht & _ & _ & Htr & _).
    exists fs, ts. repeat split; try done.
    + intros l Hl. rewrite (view_of_array _ _ _ Hl) in Hf. by injection Hf as <-.
    + intros l Hl. rewrite (view_of_array _ _ _ Hl) in Ht. by injection Ht as <-.
    + intros Hfalsy. unfold pick_array. rewrite lookup_empty.
      destruct (store s !! fromKey) as [v|]; [|done]. by rewrite Hfalsy.
    + intros Hfalsy. unfold pick_array. rewrite lookup_empty.
      destruct (store s !! toKey) as [v|]; [|done]. by rewrite Hfalsy.
Qed.

Lemma moveToSet_reads_once_merges_over_cache_witness :
  ∃ s', moveToSet "unknownWords" "knownWords" "hello" stale_state = (Ok tt, s')
    ∧ trace s' = [CGet ["unknownWords"; "knownWords"];
                  CSet (<["knownWords" := VArr ["hello"]]>
                          (<["unknownWords" := VArr ["world"]]> ∅))].
Proof.
  exists (moveToSet "unknownWords" "knownWords" "hello" stale_state).2.
  assert (moveToSet "unknownWords" "knownWords" "hello" stale_state
          = (Ok tt, (moveToSet "unknownWords" "knownWords" "hello" stale_state).2))
    as Hrun by (vm_compute; reflexivity).
  split; [exact Hrun|].
  destruct (moveToSet_reads_once_merges_over_cache _ _ _ _ _ _ Hrun) as [_ Hok].
  destruct (Hok eq_refl) as (fs & ts & Hf & Ht & Htr & _).
  rewrite Htr.
  assert (fs = ["hello"; "world"]) as -> by (vm_compute in Hf; congruence).
  assert (ts = []) as -> by (vm_compute in Ht; congruence).
  vm_compute. reflexivity.
Defined.

(** ** Writes through the queue and the cache *)

Lemma bind_ok_inv {A B} (m : M A) (f : A → M B) (s s' : state) (b : B) :
  (m ≫= f) s = (Ok b, s') → ∃ a s1, m s = (Ok a, s1) ∧ f a s1 = (Ok b, s').
Proof.
  unfold mbind, M_bind. destruct (m s) as [[a|e] s1]; [eauto | done].
Qed.

Lemma bind_err_inv {A B} (m : M A) (f : A → M B) (s s' : state) (e : error) :
  (m ≫= f) s = (Err e, s') →
  m s = (Err e, s') ∨ ∃ a s1, m s = (Ok a, s1) ∧ f a s1 = (Err e, s').
Proof.
  unfold mbind, M_bind. destruct (m s) as [[a|e1] s1]; [eauto|].
  intros [= <- <-]. by left.
Qed.

Lemma last_write_snoc (t : list call) (w : obj) :
  last_write (t ++ [CSet w]) = Some w.
Proof. unfold last_write. by rewrite foldl_app. Qed.

Lemma adapter_ok_inv (c : call) (s s' : state) (u : unit) :
  adapter c s = (Ok u, s') → next_resolves s = true ∧ s' = after_call c s.
Proof.
  rewrite adapter_eq. unfold next_resolves.
  destruct (head (script s)) as [[msg|]|]; intros [= <-]; done.
Qed.

Lemma adapter_err_inv (c : call) (s s' : state) (e : error) :
  adapter c s = (Err e, s') → s' = after_call c s.
Proof. rewrite adapter_eq. by intros [= _ <-]. Qed.

Lemma _setInternal_ok_inv (items : obj) (s s' : state) (u : unit) :
  _setInternal items false s = (Ok u, s') →
  initialized s = true
  ∧ cache s' = Some (items ∪ store s)
  ∧ store s' = items ∪ store s
  ∧ trace s' = (trace s ++ [CGetAll; CSet (items ∪ store s)])%list
  ∧ script s' = tail (tail (script s))
  ∧ queue s' = queue s ∧ initialized s' = true.
Proof.
  unfold _setInternal. destruct u. intros H.
  apply bind_ok_inv in H as (s0 & s0' & [= <- <-] & H).
  destruct (initialized s) eqn:Hi; simpl in H; [|done].
  apply bind_ok_inv in H as (base & s1 & Hget & H).
  unfold storage_get_all in Hget.
  apply bind_ok_inv in Hget as ([] & s1' & Had & Hget).
  apply adapter_ok_inv in Had as [_ ->].
  apply bind_ok_inv in Hget as (? & ? & [= <- <-] & [= <- <-]).
  apply bind_ok_inv in H as ([] & s2 & Hset & Hmod).
  injection Hmod as <-.
  unfold storage_set in Hset.
  apply bind_ok_inv in Hset as ([] & s2' & Had & Hmod).
  injection Hmod as <-.
  apply adapter_ok_inv in Had as [_ ->].
  simpl. repeat split; try done.
  - apply map_eq. intros k. rewrite !lookup_union.
    destruct (items !! k), (store s !! k); done.
  - by rewrite <- (assoc_L (++)).
Qed.

Lemma _setInternal_eq (items : obj) (s : state) :
  _setInternal items false s =
    if initialized s then
      let s1 := after_call CGetAll s in
      let merged := items ∪ store s in
      let s2 := after_call (CSet merged) s1 in
      if next_resolves s then
        if next_resolves s1
        then (Ok tt, with_cache (Some merged) (with_store (merged ∪ store s) s2))
        else (Err (rejection s1), s2)
      else (Err (rejection s), s1)
    else (Err NotInitialized, s).
Proof.
  unfold _setInternal, storage_get_all, storage_set, throw, modify.
  unfold mbind, M_bind, mret, M_ret, get_state. simpl.
  destruct (initialized s); simpl; [|reflexivity].
  rewrite adapter_eq. unfold next_resolves, rejection.
  destruct (head (script s)) as [[msg|]|]; simpl; try reflexivity.
  all: rewrite adapter_eq; simpl.
  all: destruct (head (tail (script s))) as [[msg|]|]; reflexivity.
Qed.

Lemma _setInternal_err_inv (items : obj) (s s' : state) (e : error) :
  _setInternal items false s = (Err e, s') →
  cache s' = cache s ∧ store s' = store s ∧ initialized s' = initialized s
  ∧ queue s' = queue s.
Proof.
  rewrite _setInternal_eq. cbv zeta.
  destruct (initialized s) eqn:Hi; [|by intros [= _ <-]].
  destruct (next_resolves s); [|by intros [= _ <-]].
  destruct (next_resolves (after_call _ s)); [done | by intros [= _ <-]].
Qed.

Lemma enqueue_ok_inv {A} (body : M A) (s s' : state) (a : A) :
  enqueue body s = (Ok a, s') →
  queue s = None ∧ ∃ s1, body s = (Ok a, s1) ∧ s' = with_queue None s1.
Proof.
  unfold enqueue. destruct (queue s); [done|].
  destruct (body s) as [[a'|e] s1]; [|done].
  intros [= <- <-]. eauto.
Qed.

Lemma enqueue_err_inv {A} (body : M A) (s s' : state) (e : error) :
  enqueue body s = (Err e, s') →
  (queue s = Some e ∧ s' = s)
  ∨ (queue s = None ∧ ∃ s1, body s = (Err e, s1) ∧ s' = with_queue (Some e) s1).
Proof.
  unfold enqueue. destruct (queue s) as [e0|].
  - intros [= <- <-]. by left.
  - destruct (body s) as [[a'|e1] s1]; [done|].
    intros [= <- <-]. right. eauto.
Qed.

Lemma set_ok_inv (items : obj) (s s' : state) (u : unit) :
  set items s = (Ok u, s') →
  cache s' = Some (items ∪ store s) ∧ store s' = items ∪ store s
  ∧ trace s' = (trace s ++ [CGetAll; CSet (items ∪ store s)])%list
  ∧ initialized s' = true ∧ queue s' = None.
Proof.
  intros H. apply enqueue_ok_inv in H as (Hq & s1 & Hbody & ->).
  apply _setInternal_ok_inv in Hbody as (_ & Hc & Hs & Ht & _ & _ & Hi).
  simpl. done.
Qed.

Lemma set_err_inv (items : obj) (s s' : state) (e : error) :
  set items s = (Err e, s') →
  cache s' = cache s ∧ store s' = store s ∧ initialized s' = initialized s.
Proof.
  intros H. apply enqueue_err_inv in H as [[_ ->]|(_ & s1 & Hbody & ->)]; [done|].
  apply _setInternal_err_inv in Hbody as (? & ? & ? & _). done.
Qed.

Lemma set_mirrors_write (items : obj) (s s' : state) (u : unit) :
  set items s = (Ok u, s') → mirrors_write items s'.
Proof.
  intros H. apply set_ok_inv in H as (Hc & Hs & Ht & _).
  exists (items ∪ store s). rewrite Ht, Hc, Hs.
  split; [|split; [done|split]].
  - change [CGetAll; CSet (items ∪ store s)]
      with ([CGetAll] ++ [CSet (items ∪ store s)])%list.
    rewrite (assoc_L (++)). apply last_write_snoc.
  - apply map_union_subseteq_l.
  - done.
Qed.

Lemma update_mirrors_write (key : string) (updateFn : option value → res value)
    (s s' : state) (v : value) :
  update key updateFn s = (Ok v, s') → mirrors_write {[key := v]} s'.
Proof.
  intros H. apply enqueue_ok_inv in H as (Hq & s1 & Hbody & ->).
  unfold update_body in Hbody.
  apply bind_ok_inv in Hbody as (s0 & s0' & [= <- <-] & Hbody).
  destruct (initialized s); simpl in Hbody; [|done].
  apply bind_ok_inv in Hbody as (remoteObj & s2 & _ & Hbody).
  apply bind_ok_inv in Hbody as (currentValue & s3 & _ & Hbody).
  apply bind_ok_inv in Hbody as (newValue & s4 & _ & Hbody).
  apply bind_ok_inv in Hbody as ([] & s5 & Hset & [= <- <-]).
  apply _setInternal_ok_inv in Hset as (_ & Hc & Hs & Ht & _).
  exists ({[key := newValue]} ∪ store s4). simpl. rewrite Ht, Hc, Hs.
  split; [|split; [done|split]].
  - change [CGetAll; CSet ({[key := newValue]} ∪ store s4)]
      with ([CGetAll] ++ [CSet ({[key := newValue]} ∪ store s4)])%list.
    rewrite (assoc_L (++)). apply last_write_snoc.
  - apply map_union_subseteq_l.
  - done.
Qed.

Lemma moveToSet_mirrors_write (fromKey toKey item : string) (s s' : state) (u : unit) :
  moveToSet fromKey toKey item s = (Ok u, s') →
  ∃ fs ts, view s fromKey = Ok fs ∧ view s toKey = Ok ts
    ∧ mirrors_write (move_items fromKey toKey item fs ts) s'.
Proof.
  intros H. apply moveToSet_ok_inv in H
    as (_ & _ & _ & fs & ts & Hf & Ht & Hc & Hs & Htr & _).
  exists fs, ts. split; [done|]. split; [done|]. cbv zeta in Hc, Hs, Htr.
  eexists. rewrite Htr, Hc, Hs. split; [|split; [done|split]].
  - change [CGet [fromKey; toKey];
            CSet (move_items fromKey toKey item fs ts ∪ default ∅ (cache s))]
      with ([CGet [fromKey; toKey]] ++
            [CSet (move_items fromKey toKey item fs ts ∪ default ∅ (cache s))])%list.
    rewrite (assoc_L (++)). apply last_write_snoc.
  - apply map_union_subseteq_l.
  - apply map_union_subseteq_l.
Qed.

Lemma run_sets_keeps_last (calls : list obj) (k : string) :
  ∀ (s s' : state) (rs : list (res unit)) (a : option value),
    run_sets calls s = (rs, s') →
    (∀ v, a = Some v → default ∅ (cache s) !! k = Some v ∧ store s !! k = Some v) →
    ∀ v, foldl (λ acc items, match items !! k with Some w => Some w | None => acc end)
               a (completed calls rs) = Some v →
         default ∅ (cache s') !! k = Some v ∧ store s' !! k = Some v.
Proof.
  induction calls as [|items rest IH]; intros s s' rs a Hrun Ha v Hv.
  - injection Hrun as <- <-. simpl in Hv. by apply Ha.
  - simpl in Hrun.
    destruct (set items s) as [r s1] eqn:Hset.
    destruct (run_sets rest s1) as [rs' s2] eqn:Hrest.
    injection Hrun as <- <-.
    destruct r as [u|e]; simpl in Hv.
    + apply set_ok_inv in Hset as (Hc & Hs & _).
      eapply IH; [exact Hrest | | exact Hv].
      intros w Hw. rewrite Hc, Hs. simpl.
      destruct (items !! k) as [w'|] eqn:Hk.
      * injection Hw as ->. split; by apply lookup_union_Some_l.
      * destruct (Ha w Hw) as [_ Hst].
        rewrite lookup_union_r by done. done.
    + apply set_err_inv in Hset as (Hc & Hs & _).
      eapply IH; [exact Hrest | | exact Hv].
      rewrite Hc, Hs. exact Ha.
Qed.

Lemma healthy_set (items : obj) (s : state) :
  healthy s → ∃ s', set items s = (Ok tt, s') ∧ healthy s'.
Proof.
  intros (Hi & Hq & Hscr). unfold set, enqueue. rewrite Hq, _setInternal_eq, Hi.
  cbv zeta.
  assert (next_resolves s = true) as ->.
  { unfold next_resolves. destruct (script s) as [|o l]; [done|].
    apply Forall_cons in Hscr as [-> _]. done. }
  assert (Forall (λ o, o = None) (tail (script s))) as Htl.
  { destruct (script s) as [|o l]; [done|]. by apply Forall_cons in Hscr as [_ ?]. }
  assert (next_resolves (after_call CGetAll s) = true) as ->.
  { unfold next_resolves. simpl. destruct (tail (script s)) as [|o l]; [done|].
    apply Forall_cons in Htl as [-> _]. done. }
  eexists. split; [reflexivity|].
  repeat split; simpl; try done.
  destruct (tail (script s)) as [|o l]; [done|]. by apply Forall_cons in Htl as [_ ?].
Qed.

Lemma healthy_run_sets_all_complete (calls : list obj) :
  ∀ s, healthy s → completed calls (run_sets calls s).1 = calls.
Proof.
  induction calls as [|items rest IH]; intros s Hs; [done|].
  destruct (healthy_set items s Hs) as (s1 & Hset & Hs1).
  simpl. rewrite Hset. specialize (IH s1 Hs1).
  destruct (run_sets rest s1) as [rs s2]. simpl in *. by rewrite IH.
Qed.

(** C6: a [set], an [update] or a [moveToSet] that completes leaves the
    cache equal to the object it has just persisted, which contains the
    written keys with the written values and is what the backing store holds
    for those keys.  Hence, after any sequence of [set] calls through the
    queue, the cache (and the store) bind a key to the value given by the
    last completed [set] that included it, whatever later sets wrote to other
    keys; and on a manager on which nothing fails every call of the sequence
    completes. *)
Theorem cache_mirrors_completed_writes :
  (∀ items s s', set items s = (Ok tt, s') → mirrors_write items s')
  ∧ (∀ key updateFn s s' v,
       update key updateFn s = (Ok v, s') → mirrors_write {[key := v]} s')
  ∧ (∀ fromKey toKey item s s',
       moveToSet fromKey toKey item s = (Ok tt, s') →
       ∃ fs ts, view s fromKey = Ok fs ∧ view s toKey = Ok ts
         ∧ mirrors_write (move_items fromKey toKey item fs ts) s')
  ∧ (∀ calls s rs s' k v,
       run_sets calls s = (rs, s') →
       last_set_value k (completed calls rs) = Some v →
       default ∅ (cache s') !! k = Some v ∧ store s' !! k = Some v)
  ∧ (∀ calls s, healthy s → completed calls (run_sets calls s).1 = calls).
Proof.
  split; [|split; [|split; [|split]]].
  - intros. by eapply set_mirrors_write.
  - intros. by eapply update_mirrors_write.
  - intros. by eapply moveToSet_mirrors_write.
  - intros calls s rs s' k v Hrun Hv.
    eapply run_sets_keeps_last; [exact Hrun | | exact Hv]. done.
  - intros. by apply healthy_run_sets_all_complete.
Qed.

Lemma cache_mirrors_completed_writes_witness :
  let calls := [ {["a" := VNum 1]}; {["b" := VNum 2]}; {["a" := VNum 3]} ] in
  let s' := (run_sets calls sample_state).2 in
  default ∅ (cache s') !! "a" = Some (VNum 3)
  ∧ default ∅ (cache s') !! "b" = Some (VNum 2)
  ∧ mirrors_write {["a" := VNum 1]} (set {["a" := VNum 1]} sample_state).2.
Proof.
  intros calls s'.
  destruct cache_mirrors_completed_writes as (Hset & _ & _ & Hseq & _).
  assert (run_sets calls sample_state = (replicate 3 (Ok tt), s')) as Hrun
    by (vm_compute; reflexivity).
  split; [|split].
  - apply (Hseq calls sample_state _ s' "a" (VNum 3) Hrun). vm_compute. reflexivity.
  - apply (Hseq calls sample_state _ s' "b" (VNum 2) Hrun). vm_compute. reflexivity.
  - apply (Hset _ sample_state). vm_compute. reflexivity.
Defined.

(** ** Ordered objects *)

Lemma plookup_passign (k k' : string) (v : value) (p : pend) :
  plookup k (passign k' v p) = if decide (k' = k) then Some v else plookup k p.
Proof.
  induction p as [|[k0 v0] p IH]; simpl.
  - done.
  - destruct (decide (k0 = k')) as [->|Hne]; simpl.
    + destruct (decide (k' = k)); done.
    + rewrite IH. destruct (decide (k0 = k)) as [->|?]; [|done].
      by rewrite decide_False.
Qed.

Lemma keys_passign (k : string) (v : value) (p : pend) :
  keys (passign k v p) = if decide (k ∈ keys p) then keys p else (keys p ++ [k])%list.
Proof.
  unfold keys. induction p as [|[k0 v0] p IH].
  - destruct (decide (k ∈ ([] : pend).*1)) as [H|H]; [|done].
    by apply elem_of_nil in H.
  - cbn [passign]. destruct (decide (k0 = k)) as [->|Hne].
    + destruct (decide (k ∈ ((k, v0) :: p).*1)) as [H|H]; [done|].
      exfalso. apply H. apply list_elem_of_here.
    + rewrite fmap_cons, IH. cbn [fst fmap list_fmap].
      destruct (decide (k ∈ p.*1)) as [Hin|Hin];
        destruct (decide (k ∈ k0 :: p.*1)) as [H|H]; try done.
      * exfalso. apply H. by apply list_elem_of_further.
      * apply elem_of_cons in H as [?|?]; congruence.
Qed.

Lemma passign_fresh (k : string) (v : value) (p : pend) :
  k ∉ keys p → passign k v p = (p ++ [(k, v)])%list.
Proof.
  unfold keys. induction p as [|[k0 v0] p IH]; simpl; intros Hk; [done|].
  apply not_elem_of_cons in Hk as [Hne Hk].
  rewrite decide_False by done. by rewrite IH.
Qed.

Lemma elem_of_keys_passign (k k' : string) (v : value) (p : pend) :
  k ∈ keys (passign k' v p) ↔ k = k' ∨ k ∈ keys p.
Proof.
  rewrite keys_passign. destruct (decide (k' ∈ keys p)) as [Hin|Hin].
  - split; [by right | intros [->|?]; done].
  - rewrite elem_of_app, list_elem_of_singleton. tauto.
Qed.

Lemma wf_passign (k : string) (v : value) (p : pend) :
  wf_pend p → wf_pend (passign k v p).
Proof.
  unfold wf_pend. intros Hp. rewrite keys_passign.
  destruct (decide (k ∈ keys p)); [done|].
  apply NoDup_app. split; [done|]. split; [|apply NoDup_singleton].
  intros x Hx ->%list_elem_of_singleton. done.
Qed.

Lemma wf_spread (a b : pend) : wf_pend a → wf_pend (spread a b).
Proof.
  unfold spread. revert a. induction b as [|[k v] b IH]; intros a Ha; simpl; [done|].
  apply IH. by apply wf_passign.
Qed.

Lemma elem_of_keys_spread (k : string) (a b : pend) :
  k ∈ keys (spread a b) ↔ k ∈ keys a ∨ k ∈ keys b.
Proof.
  unfold spread. revert a. induction b as [|[k0 v0] b IH]; intros a.
  - cbn [foldl]. split; [by left|]. intros [?|H]; [done|].
    by apply elem_of_nil in H.
  - cbn [foldl]. rewrite IH, elem_of_keys_passign.
    change (keys ((k0, v0) :: b)) with (k0 :: keys b).
    rewrite elem_of_cons. cbn [fst snd]. tauto.
Qed.

(** In [{ ...a, ...b }] the bindings of [b] win. *)
Lemma plookup_spread (k : string) (a b : pend) :
  wf_pend b →
  plookup k (spread a b) = match plookup k b with Some v => Some v | None => plookup k a end.
Proof.
  unfold spread, wf_pend, keys. revert a.
  induction b as [|[k0 v0] b IH]; intros a Hb; simpl; [done|].
  apply NoDup_cons in Hb as [Hk0 Hb]. rewrite IH by done.
  destruct (decide (k0 = k)) as [->|Hne].
  - assert (plookup k b = None) as ->.
    { clear -Hk0. induction b as [|[k1 v1] b IH]; simpl; [done|].
      simpl in Hk0. apply not_elem_of_cons in Hk0 as [Hne Hk0].
      rewrite decide_False by done. by apply IH. }
    rewrite plookup_passign. by rewrite decide_True.
  - destruct (plookup k b); [done|].
    rewrite plookup_passign. by rewrite decide_False.
Qed.

Lemma wf_absorbed (p : pend) (consumed : list pend) :
  wf_pend p → wf_pend (foldl spread p consumed).
Proof.
  revert p. induction consumed as [|c cs IH]; intros p Hp; simpl; [done|].
  apply IH. by apply wf_spread.
Qed.

Lemma plookup_elem_of (k : string) (v : value) (p : pend) :
  wf_pend p → (k, v) ∈ p → plookup k p = Some v.
Proof.
  unfold wf_pend, keys. induction p as [|[k0 v0] p IH]; intros Hp Hin.
  - by apply elem_of_nil in Hin.
  - simpl in Hp. apply NoDup_cons in Hp as [Hk0 Hp]. simpl.
    apply elem_of_cons in Hin as [ [= -> ->] | Hin].
    + by rewrite decide_True.
    + rewrite decide_False; [by apply IH|].
      intros ->. apply Hk0. apply list_elem_of_fmap. by exists (k, v).
Qed.

(** Copying the entries of [q] key by key out of [p] rebuilds [q]. *)
Lemma chunk_of_keys (p q : pend) :
  wf_pend q → (∀ k v, (k, v) ∈ q → plookup k p = Some v) →
  chunk_of p (keys q) = q.
Proof.
  unfold chunk_of.
  assert (∀ acc, NoDup (keys acc ++ keys q) →
                 (∀ k v, (k, v) ∈ q → plookup k p = Some v) →
                 foldl (λ chunkObj k,
                          match plookup k p with
                          | Some v => passign k v chunkObj
                          | None => chunkObj
                          end) acc (keys q) = (acc ++ q)%list) as H.
  { induction q as [|[k v] q IH]; intros acc Hnd Hp.
    - by rewrite app_nil_r.
    - change (keys ((k, v) :: q)) with (k :: keys q) in *. cbn [foldl].
      rewrite (Hp k v) by apply list_elem_of_here.
      apply NoDup_app in Hnd as (Hacc & Hdisj & Hq).
      apply NoDup_cons in Hq as [Hk Hq].
      rewrite passign_fresh.
      2:{ intros Hin. apply (Hdisj k Hin). apply list_elem_of_here. }
      rewrite IH.
      + by rewrite <- (assoc_L (++)).
      + unfold keys. rewrite fmap_app. fold (keys acc) (keys q).
        cbn [fmap list_fmap fst]. apply NoDup_app. split; [|split; [|done]].
        * apply NoDup_app. split; [done|]. split; [|apply NoDup_singleton].
          intros x Hx ->%list_elem_of_singleton.
          apply (Hdisj k Hx). apply list_elem_of_here.
        * intros x [Hx | ->%list_elem_of_singleton]%elem_of_app; [|done].
          intros Hxq. apply (Hdisj x Hx). by apply list_elem_of_further.
      + intros k' v' Hin. apply Hp. by apply list_elem_of_further. }
  intros Hq Hp. apply (H [] ); [exact Hq | exact Hp].
Qed.

(** The chunk the loop builds at index [i] is the slice of the snapshot. *)
Lemma chunk_of_slice (p : pend) (i : nat) :
  wf_pend p →
  chunk_of p (slice (keys p) i (i + chunkSize)) = take 20 (drop i p).
Proof.
  intros Hp. unfold slice, keys, chunkSize.
  replace (i + 20 - i)%nat with 20%nat by lia.
  rewrite <- fmap_drop, <- fmap_take. apply chunk_of_keys.
  - unfold wf_pend, keys. rewrite fmap_take, fmap_drop.
    eapply sublist_NoDup; [exact Hp|].
    etrans; [apply sublist_take | apply sublist_drop].
  - intros k v Hin. apply plookup_elem_of; [done|].
    by apply subseteq_take, subseteq_drop in Hin.
Qed.

(** ** One flush *)

Lemma flush_step_refl (b : bg) : flush_step b b [] [].
Proof. unfold flush_step. by rewrite app_nil_r. Qed.

Lemma flush_step_trans (b1 b2 b3 : bg) (e1 e2 : list flush_event) (c1 c2 : list pend) :
  flush_step b1 b2 e1 c1 → flush_step b2 b3 e2 c2 →
  flush_step b1 b3 (e1 ++ e2) (c1 ++ c2).
Proof.
  intros (Hl1 & Ha1 & Hp1 & Hf1) (Hl2 & Ha2 & Hp2 & Hf2). unfold flush_step.
  rewrite Hl2, Hl1, Ha1, Ha2, Hp2, Hp1, Hf2, Hf1, foldl_app.
  by rewrite !(assoc_L (++)).
Qed.

(** Awaiting a call on the manager: the call itself touches the manager
    only; meanwhile one batch of [set] requests, if any, is merged. *)
Lemma await_step {A} (method : M A) (b : bg) :
  flush_step b (arrive (callMethod method b).2) [] (take 1 (arrivals b))
  ∧ flushMetrics (arrive (callMethod method b).2) = flushMetrics b
  ∧ now (arrive (callMethod method b).2) = now b.
Proof.
  unfold callMethod. destruct (method (storageManager b)) as [r m'].
  destruct b as [p t f m d sm n arr lg]. unfold arrive, flush_step. simpl.
  destruct arr as [|[|kv args] rest]; simpl; rewrite app_nil_r; done.
Qed.

Lemma flush_step_log (b b1 : bg) (evs : list flush_event) (consumed : list pend)
    (e : flush_event) (m : metrics) :
  flush_step b b1 evs consumed →
  flush_step b (log_event e (with_metrics m b1)) (evs ++ [e]) consumed.
Proof.
  intros (Hl & Ha & Hp & Hf). unfold flush_step, log_event. simpl.
  rewrite Hl, <- Ha, Hp, Hf. by rewrite (assoc_L (++)).
Qed.

Lemma flush_step_sleep (b b1 : bg) (evs : list flush_event) (consumed : list pend)
    (ms : Z) :
  flush_step b b1 evs consumed →
  flush_step b (sleep ms b1) (evs ++ [Backoff ms]) consumed.
Proof.
  intros (Hl & Ha & Hp & Hf). unfold flush_step, sleep, log_event. simpl.
  rewrite Hl, <- Ha, Hp, Hf. by rewrite (assoc_L (++)).
Qed.

Lemma flush_step_with_metrics (b b1 : bg) (evs : list flush_event)
    (consumed : list pend) (m : metrics) :
  flush_step b b1 evs consumed → flush_step b (with_metrics m b1) evs consumed.
Proof. intros (Hl & Ha & Hp & Hf). unfold flush_step. simpl. done. Qed.

Lemma writeChunk_from (fuel : nat) :
  ∀ (c : pend) (a : Z) (b b' : bg) (r : res bool),
    (Z.to_nat (3 - a) ≤ fuel)%nat →
    writeChunkWithRetry fuel c a b = (r, b') →
    ∃ evs consumed,
      flush_step b b' evs consumed
      ∧ retry_from c a evs (is_ok r)
      ∧ failedFlushCount (flushMetrics b')
        = failedFlushCount (flushMetrics b) + (if is_ok r then 0 else 1).
Proof.
  induction fuel as [|fuel IH]; intros c a b b' r Hfuel Hrun.
  all: cbn [writeChunkWithRetry] in Hrun.
  all: destruct (await_step (set (to_obj c)) b) as (Hstep & Hm & _).
  all: destruct (callMethod (set (to_obj c)) b) as [r0 b0] eqn:Hcall.
  all: cbn [snd] in Hstep, Hm.
  all: destruct r0 as [u|err].
  - injection Hrun as <- <-. exists [Attempt c a true], (take 1 (arrivals b)).
    split; [exact (flush_step_log _ _ _ _ _ _ Hstep)|].
    split; [constructor|]. simpl. rewrite Hm. lia.
  - assert ((a <? 3) = false) as Hlt by lia. rewrite Hlt in Hrun.
    injection Hrun as <- <-. exists [Attempt c a false], (take 1 (arrivals b)).
    split; [exact (flush_step_with_metrics _ _ _ _ _ (flush_step_log _ _ _ _ _ _ Hstep))|].
    split; [apply retry_exhausted; lia|]. simpl. rewrite Hm. lia.
  - injection Hrun as <- <-. exists [Attempt c a true], (take 1 (arrivals b)).
    split; [exact (flush_step_log _ _ _ _ _ _ Hstep)|].
    split; [constructor|]. simpl. rewrite Hm. lia.
  - destruct (a <? 3) eqn:Hlt.
    + apply IH in Hrun as (evs & consumed & Hstep' & Hretry & Hcount); [|lia].
      exists (Attempt c a false :: Backoff (100 * 2 ^ (a - 1)) :: evs),
             (take 1 (arrivals b) ++ consumed)%list.
      split; [|split].
      * exact (flush_step_trans _ _ _ _ _ _ _
                 (flush_step_sleep _ _ _ _ _ (flush_step_log _ _ _ _ _ _ Hstep))
                 Hstep').
      * apply retry_again; [lia | done].
      * rewrite Hcount. simpl. rewrite Hm. done.
    + injection Hrun as <- <-. exists [Attempt c a false], (take 1 (arrivals b)).
      split; [exact (flush_step_with_metrics _ _ _ _ _ (flush_step_log _ _ _ _ _ _ Hstep))|].
      split; [apply retry_exhausted; lia|]. simpl. rewrite Hm. lia.
Qed.

(** From attempt 1 the retries have one of the four shapes of the spec. *)
Lemma retry_from_round (c : pend) (evs : list flush_event) (ok : bool) :
  retry_from c 1 evs ok → retry_round c evs ok.
Proof.
  intros H. inversion H as [a|a evs2 ok2 Hlt H2|a Hge]; subst; [constructor| |lia].
  change (100 * 2 ^ (1 - 1)) with 100. change (1 + 1) with 2 in H2.
  inversion H2 as [a|a evs3 ok3 Hlt3 H3|a Hge]; subst; [constructor| |lia].
  change (100 * 2 ^ (2 - 1)) with 200. change (2 + 1) with 3 in H3.
  inversion H3 as [a|a evs4 ok4 Hlt4 H4|a Hge]; subst; [constructor|lia|constructor].
Qed.

(** Two retries are all [writeChunkWithRetry] ever uses from attempt 1:
    more fuel changes nothing. *)
Lemma writeChunkWithRetry_fuel (fuel : nat) :
  ∀ (c : pend) (a : Z) (b : bg),
    (Z.to_nat (3 - a) ≤ fuel)%nat →
    writeChunkWithRetry fuel c a b = writeChunkWithRetry (Z.to_nat (3 - a)) c a b.
Proof.
  induction fuel as [|fuel IH]; intros c a b Hfuel.
  - by replace (Z.to_nat (3 - a)) with 0%nat by lia.
  - destruct (Z.to_nat (3 - a)) as [|n] eqn:Hn.
    + cbn [writeChunkWithRetry].
      destruct (callMethod (set (to_obj c)) b) as [[u|err] b0]; [done|].
      assert ((a <? 3) = false) as -> by lia. done.
    + cbn [writeChunkWithRetry].
      destruct (callMethod (set (to_obj c)) b) as [[u|err] b0]; [done|].
      destruct (a <? 3) eqn:Hlt; [|done].
      rewrite IH by lia. by replace (Z.to_nat (3 - (a + 1))) with n by lia.
Qed.

Lemma flush_chunks_rounds (toWrite : pend) (fuel : nat) :
  wf_pend toWrite →
  ∀ (i : nat) (b b' : bg) (r : res unit),
    (length toWrite - i ≤ fuel)%nat →
    flush_chunks fuel toWrite (keys toWrite) i b = (r, b') →
    ∃ evs consumed,
      flush_step b b' evs consumed
      ∧ flush_rounds (drop i toWrite) evs (is_ok r)
      ∧ failedFlushCount (flushMetrics b')
        = failedFlushCount (flushMetrics b) + (if is_ok r then 0 else 1).
Proof.
  intros Hwf. induction fuel as [|fuel IH]; intros i b b' r Hfuel Hrun.
  all: cbn [flush_chunks] in Hrun.
  all: unfold keys in Hrun; rewrite length_fmap in Hrun; fold (keys toWrite) in Hrun.
  all: destruct (i <? length toWrite)%nat eqn:Hi.
  all: try (apply Nat.ltb_lt in Hi; lia).
  all: try (apply Nat.ltb_ge in Hi; injection Hrun as <- <-;
            exists [], []; rewrite drop_ge by done;
            split; [apply flush_step_refl|]; split; [constructor | simpl; lia]).
  apply Nat.ltb_lt in Hi. rewrite chunk_of_slice in Hrun by done.
  destruct (writeChunkWithRetry 2 (take 20 (drop i toWrite)) 1 b)
    as [r1 b1] eqn:Hchunk.
  apply writeChunk_from in Hchunk as (evs1 & c1 & Hstep1 & Hretry & Hcount1);
    [|simpl; lia].
  apply retry_from_round in Hretry.
  assert (drop i toWrite ≠ []) as Hne.
  { intros Hnil. apply (f_equal length) in Hnil. rewrite length_drop in Hnil.
    simpl in Hnil. lia. }
  destruct r1 as [ok|e].
  - apply IH in Hrun as (evs2 & c2 & Hstep2 & Hrounds & Hcount2);
      [|unfold chunkSize; lia].
    exists (evs1 ++ evs2)%list, (c1 ++ c2)%list. split; [|split].
    + by eapply flush_step_trans.
    + apply rounds_next; [done | done |].
      rewrite drop_drop. exact Hrounds.
    + rewrite Hcount2, Hcount1. simpl. lia.
  - injection Hrun as <- <-. exists evs1, c1. split; [done|]. split.
    + by apply rounds_abort.
    + exact Hcount1.
Qed.

(** With [length ks] units of fuel the chunk loop never runs short: any
    two amounts that cover the keys left give the same run. *)
Lemma flush_chunks_fuel (toWrite : pend) (ks : list string) (fuel1 : nat) :
  ∀ (fuel2 i : nat) (b : bg),
    (length ks - i ≤ fuel1)%nat → (length ks - i ≤ fuel2)%nat →
    flush_chunks fuel1 toWrite ks i b = flush_chunks fuel2 toWrite ks i b.
Proof.
  induction fuel1 as [|fuel1 IH]; intros fuel2 i b H1 H2.
  all: destruct fuel2 as [|fuel2]; cbn [flush_chunks].
  all: destruct (i <? length ks)%nat eqn:Hi; try done.
  all: try (apply Nat.ltb_lt in Hi; lia).
  destruct (writeChunkWithRetry 2 _ 1 b) as [[ok|e] b1]; [|done].
  apply IH; unfold chunkSize; lia.
Qed.

(** A flush that has nothing to write or finds another one running returns
    at once and changes nothing. *)
Lemma flushPendingWrites_noop (b : bg) :
  pendingWrites b = [] ∨ flushInProgress b = true →
  flushPendingWrites b = (Ok false, b).
Proof.
  unfold flushPendingWrites. intros [Hp|Hf].
  - rewrite Hp. done.
  - rewrite Hf. by destruct (bool_decide _).
Qed.

Lemma flushPendingWrites_spec (b b' : bg) (r : res bool) :
  pendingWrites b ≠ [] → flushInProgress b = false → wf_pend (pendingWrites b) →
  flushPendingWrites b = (r, b') →
  ∃ evs consumed,
    flushLog b' = (flushLog b ++ evs)%list
    ∧ arrivals b = (consumed ++ arrivals b')%list
    ∧ flush_rounds (pendingWrites b) evs (is_ok r)
    ∧ pendingWrites b'
      = (if is_ok r then foldl spread [] consumed
         else spread (pendingWrites b) (foldl spread [] consumed))
    ∧ failedFlushCount (flushMetrics b')
      = failedFlushCount (flushMetrics b) + (if is_ok r then 0 else 1)
    ∧ flushInProgress b' = false
    ∧ (is_ok r = true → r = Ok true).
Proof.
  intros Hne Hf Hwf Hflush. revert Hflush. unfold flushPendingWrites.
  assert (keys (pendingWrites b) ≠ []) as Hk.
  { destruct (pendingWrites b); [done|]. done. }
  rewrite bool_decide_eq_false_2 by done. rewrite Hf. cbv zeta.
  change (pendingWrites (with_flushInProgress true b)) with (pendingWrites b).
  rewrite bool_decide_eq_false_2 by done.
  destruct (flush_chunks _ _ _ 0 _) as [r1 b3] eqn:Hrun.
  apply flush_chunks_rounds in Hrun
    as (evs & consumed & (Hl & Ha & Hp & _) & Hrounds & Hcount); [|done|].
  2:{ unfold keys. rewrite length_fmap. lia. }
  rewrite drop_0 in Hrounds. simpl in Hl, Ha, Hp, Hcount.
  intros Hflush. exists evs, consumed.
  destruct r1 as [u|e]; injection Hflush as <- <-; simpl; rewrite Hp; done.
Qed.

Lemma retry_round_shape (c : pend) (evs : list flush_event) (ok : bool) :
  retry_round c evs ok →
  (∀ c' a ok', Attempt c' a ok' ∈ evs → c' = c ∧ 1 ≤ a ≤ 3)
  ∧ (∀ ms, Backoff ms ∈ evs → ms = 100 ∨ ms = 200)
  ∧ written evs = (if ok then c else [])
  ∧ (length evs ≤ 5)%nat.
Proof.
  intros H. destruct H; (split; [|split; [|split]]);
    try (simpl; lia);
    try (unfold written; simpl; by rewrite ?app_nil_r).
  all: intros ? ?; intros; set_unfold; destruct_or!; simplify_eq; auto with lia.
Qed.

Lemma written_app (e1 e2 : list flush_event) :
  written (e1 ++ e2) = (written e1 ++ written e2)%list.
Proof. unfold written. by rewrite omap_app, concat_app. Qed.

(** What the spec's wording of a flush entails for its log. *)
Lemma flush_rounds_shape (snapshot : pend) (evs : list flush_event) (ok : bool) :
  flush_rounds snapshot evs ok →
  (∀ c a ok', Attempt c a ok' ∈ evs →
     (length c ≤ 20)%nat ∧ 1 ≤ a ≤ 3 ∧ c `sublist_of` snapshot)
  ∧ (∀ ms, Backoff ms ∈ evs → ms = 100 ∨ ms = 200)
  ∧ (written evs `prefix_of` snapshot)
  ∧ (ok = true → written evs = snapshot).
Proof.
  induction 1 as [|snapshot evs evs' ok Hne Hround Hrest IH|snapshot evs Hne Hround].
  - split; [|split; [|split]]; try done.
    + intros c a ok' Hin. by apply elem_of_nil in Hin.
    + intros ms Hin. by apply elem_of_nil in Hin.
  - apply retry_round_shape in Hround as (Hatt & Hback & Hwr & _).
    destruct IH as (IHatt & IHback & IHpre & IHall).
    split; [|split; [|split]].
    + intros c a ok' [Hin|Hin]%elem_of_app.
      * apply Hatt in Hin as [-> Ha]. split; [|split; [done|]].
        -- rewrite length_take. lia.
        -- apply sublist_take.
      * apply IHatt in Hin as (Hlen & Ha & Hsub). split; [done|]. split; [done|].
        etrans; [exact Hsub | apply sublist_drop].
    + intros ms [Hin|Hin]%elem_of_app; auto.
    + rewrite written_app, Hwr. rewrite <- (take_drop 20 snapshot) at 2.
      by apply prefix_app.
    + intros Hok. rewrite written_app, Hwr, (IHall Hok). apply take_drop.
  - apply retry_round_shape in Hround as (Hatt & Hback & Hwr & _).
    split; [|split; [|split]]; try done.
    + intros c a ok' Hin. apply Hatt in Hin as [-> Ha]. split; [|split; [done|]].
      * rewrite length_take. lia.
      * apply sublist_take.
    + rewrite Hwr. apply prefix_nil.
Qed.

(** C5: a flush that finds the buffer empty or another flush running does
    nothing.  Any other flush takes the whole buffer as its snapshot and
    empties the buffer before it writes, so that what the buffer holds when
    the flush succeeds is only what arrived meanwhile; it writes the snapshot
    as consecutive chunks of at most 20 keys, one after the other, stopping at
    the first chunk that fails for good; and each chunk is attempted at most
    three times, 100ms and then 200ms apart, before it is declared
    permanently failed. *)
Theorem flush_writes_chunks_with_backoff (b b' : bg) (r : res bool) :
  wf_pend (pendingWrites b) →
  flushPendingWrites b = (r, b') →
  (pendingWrites b = [] ∨ flushInProgress b = true → r = Ok false ∧ b' = b)
  ∧ (pendingWrites b ≠ [] → flushInProgress b = false →
     ∃ evs consumed,
       flushLog b' = (flushLog b ++ evs)%list
       ∧ arrivals b = (consumed ++ arrivals b')%list
       ∧ flush_rounds (pendingWrites b) evs (is_ok r)
       ∧ (∀ c a ok, Attempt c a ok ∈ evs →
            (length c ≤ 20)%nat ∧ 1 ≤ a ≤ 3 ∧ c `sublist_of` pendingWrites b)
       ∧ (∀ ms, Backoff ms ∈ evs → ms = 100 ∨ ms = 200)
       ∧ written evs `prefix_of` pendingWrites b
       ∧ (is_ok r = true →
            written evs = pendingWrites b
            ∧ pendingWrites b' = foldl spread [] consumed)).
Proof.
  intros Hwf Hrun. split.
  - intros Hnoop. rewrite (flushPendingWrites_noop b Hnoop) in Hrun.
    by injection Hrun as <- <-.
  - intros Hne Hf.
    destruct (flushPendingWrites_spec b b' r Hne Hf Hwf Hrun)
      as (evs & consumed & Hl & Ha & Hrounds & Hp & _).
    destruct (flush_rounds_shape _ _ _ Hrounds) as (Hatt & Hback & Hpre & Hall).
    exists evs, consumed.
    split; [done|]. split; [done|]. split; [done|]. split; [exact Hatt|].
    split; [exact Hback|]. split; [done|].
    intros Hok. split; [by apply Hall|]. by rewrite Hp, Hok.
Qed.

Lemma flush_writes_chunks_with_backoff_witness :
  ∃ evs, flushLog (flushPendingWrites failing_background).2 = evs
    ∧ flush_rounds [("a", VNum 1)] evs false
    ∧ ∀ ms, Backoff ms ∈ evs → ms = 100 ∨ ms = 200.
Proof.
  assert (wf_pend (pendingWrites failing_background)) as Hwf.
  { unfold wf_pend. simpl. apply NoDup_singleton. }
  assert (flushPendingWrites failing_background
          = (Err (AdapterFailure "quota exceeded"),
             (flushPendingWrites failing_background).2)) as Hrun
    by (vm_compute; reflexivity).
  destruct (flush_writes_chunks_with_backoff _ _ _ Hwf Hrun) as [_ H].
  destruct H as (evs & consumed & Hl & _ & Hrounds & _ & Hback & _);
    [discriminate | reflexivity |].
  exists evs. split; [exact Hl|]. split; [exact Hrounds | exact Hback].
Defined.

(** [status] reports the keys of the buffer as it stands. *)
Lemma status_reports_pending (b : bg) :
  ∃ m, (storageOp OpStatus b).1
       = Reply (RStatus (keys (pendingWrites b)) (length (keys (pendingWrites b))) m).
Proof.
  unfold storageOp. cbv zeta.
  destruct (pendingFlushDelay b =? 0);
    destruct (initialized (storageManager _)); simpl; try (eexists; reflexivity).
  all: unfold callMethod; simpl;
    destruct (initialize _ _) as [r m']; simpl; eexists; reflexivity.
Qed.

(** C4: when a flush fails for good, the buffer afterwards is the whole
    snapshot taken at its start with the writes that arrived during the
    flush merged over it: every key of the snapshot and every key that
    arrived is pending again (nothing is dropped), a key that arrived has the
    arrived value, any other key has its snapshot value, [status] lists
    these keys, and [failedFlushCount] has grown by exactly one. *)
Theorem failed_flush_rebuffers_snapshot (b b' : bg) (e : error) :
  wf_pend (pendingWrites b) →
  flushPendingWrites b = (Err e, b') →
  ∃ consumed,
    let arrived := foldl spread [] consumed in
    arrivals b = (consumed ++ arrivals b')%list
    ∧ pendingWrites b' = spread (pendingWrites b) arrived
    ∧ (∀ k, k ∈ keys (pendingWrites b) ∨ k ∈ keys arrived →
            k ∈ keys (pendingWrites b'))
    ∧ (∀ k v, plookup k arrived = Some v → plookup k (pendingWrites b') = Some v)
    ∧ (∀ k, plookup k arrived = None →
            plookup k (pendingWrites b') = plookup k (pendingWrites b))
    ∧ failedFlushCount (flushMetrics b') = failedFlushCount (flushMetrics b) + 1
    ∧ (∃ n m, (storageOp OpStatus b').1 = Reply (RStatus (keys (pendingWrites b')) n m))
    ∧ flushInProgress b' = false.
Proof.
  intros Hwf Hrun.
  assert (pendingWrites b ≠ [] ∧ flushInProgress b = false) as [Hne Hf].
  { split.
    - intros Hnil. by rewrite (flushPendingWrites_noop b (or_introl Hnil)) in Hrun.
    - destruct (flushInProgress b) eqn:Hf; [|done].
      by rewrite (flushPendingWrites_noop b (or_intror Hf)) in Hrun. }
  destruct (flushPendingWrites_spec b b' _ Hne Hf Hwf Hrun)
    as (evs & consumed & _ & Ha & _ & Hp & Hcount & Hf' & _).
  simpl in Hp, Hcount.
  assert (wf_pend (foldl spread [] consumed)) as Harr.
  { apply wf_absorbed. unfold wf_pend. simpl. apply NoDup_nil_2. }
  exists consumed. cbv zeta. rewrite Hp.
  split; [done|]. split; [done|]. split; [|split; [|split; [|split; [|split]]]].
  - intros k Hk. by apply elem_of_keys_spread.
  - intros k v Hk. by rewrite plookup_spread, Hk.
  - intros k Hk. by rewrite plookup_spread, Hk.
  - done.
  - rewrite <- Hp. destruct (status_reports_pending b') as [m Hm]. eauto.
  - done.
Qed.

Lemma failed_flush_rebuffers_snapshot_witness :
  let b' := (flushPendingWrites failing_background).2 in
  pendingWrites b' = [("a", VNum 2); ("b", VNum 3)]
  ∧ failedFlushCount (flushMetrics b') = 1.
Proof.
  intros b'.
  assert (wf_pend (pendingWrites failing_background)) as Hwf.
  { unfold wf_pend. simpl. apply NoDup_singleton. }
  assert (flushPendingWrites failing_background
          = (Err (AdapterFailure "quota exceeded"), b')) as Hrun
    by (vm_compute; reflexivity).
  destruct (failed_flush_rebuffers_snapshot _ _ _ Hwf Hrun)
    as (consumed & _ & _ & _ & _ & _ & Hcount & _).
  split; [vm_compute; reflexivity | exact Hcount].
Defined.

(** ** Debouncing *)

(** The manager after the handler's initialization step. *)
Lemma handler_init_healthy (m : state) (schema : keys_arg) :
  queue m = None → Forall (λ o, o = None) (script m) →
  ∃ m1, (if initialized m then m else (initialize schema m).2) = m1
    ∧ healthy m1 ∧ store m1 = store m
    ∧ ∃ calls, trace m1 = (trace m ++ calls)%list ∧ writes calls = [].
Proof.
  intros Hq Hscr. destruct (initialized m) eqn:Hi.
  - exists m. split; [done|]. split; [done|]. split; [done|].
    exists []. by rewrite app_nil_r.
  - unfold initialize. rewrite Hi. unfold enqueue. rewrite Hq.
    assert (Forall (λ o, o = None) (tail (script m))) as Htl.
    { destruct (script m) as [|o l]; [done|]. by apply Forall_cons in Hscr as [_ ?]. }
    assert (next_resolves m = true) as Hnext.
    { unfold next_resolves. destruct (script m) as [|o l]; [done|].
      apply Forall_cons in Hscr as [-> _]. done. }
    assert (∀ c, adapter c m = (Ok tt, after_call c m)) as Had.
    { intros c. rewrite adapter_eq. unfold next_resolves in Hnext.
      by destruct (head (script m)) as [[msg|]|]. }
    unfold initialize_body, storage_get_schema, storage_get_defaults, storage_get.
    unfold mbind, M_bind, mret, M_ret, get_state, modify.
    destruct schema as [k|ks|defaults]; rewrite Had; simpl.
    all: eexists; split; [reflexivity|]; split; [done|]; split; [done|].
    all: eexists; split; [reflexivity|]; done.
Qed.

(** A flush of a buffer that fits in one chunk, on a worker whose manager
    never fails and to which nothing arrives meanwhile: one write, at the
    first attempt. *)
Lemma flush_single_chunk (b : bg) :
  pendingWrites b ≠ [] → (length (pendingWrites b) ≤ 20)%nat →
  wf_pend (pendingWrites b) → flushInProgress b = false → arrivals b = [] →
  healthy (storageManager b) →
  ∃ m' b',
    set (to_obj (pendingWrites b)) (storageManager b) = (Ok tt, m')
    ∧ healthy m'
    ∧ flushPendingWrites b = (Ok true, b')
    ∧ storageManager b' = m'
    ∧ flushLog b' = (flushLog b ++ [Attempt (pendingWrites b) 1 true])%list
    ∧ pendingWrites b' = [] ∧ pendingFlushTimer b' = pendingFlushTimer b
    ∧ flushedCount (flushMetrics b') = flushedCount (flushMetrics b) + 1
    ∧ now b' = now b.
Proof.
  intros Hne Hlen Hwf Hf Harr Hm.
  destruct (healthy_set (to_obj (pendingWrites b)) _ Hm) as (m' & Hset & Hm').
  exists m'.
  unfold flushPendingWrites.
  assert (keys (pendingWrites b) ≠ []) as Hk.
  { destruct (pendingWrites b); [done|]. done. }
  rewrite bool_decide_eq_false_2 by done. rewrite Hf. cbv zeta.
  change (pendingWrites (with_flushInProgress true b)) with (pendingWrites b).
  rewrite bool_decide_eq_false_2 by done.
  assert (length (keys (pendingWrites b)) = length (pendingWrites b)) as Hkl.
  { unfold keys. apply length_fmap. }
  destruct (length (keys (pendingWrites b))) as [|n] eqn:Hn.
  { destruct (pendingWrites b); [done|]. simpl in Hkl. lia. }
  cbn [flush_chunks]. rewrite Hn.
  assert ((0 <? S n)%nat = true) as -> by (apply Nat.ltb_lt; lia).
  rewrite chunk_of_slice by done. rewrite drop_0, take_ge by lia.
  cbn [writeChunkWithRetry]. unfold callMethod at 1. simpl. rewrite Hset.
  assert (arrive (with_manager m'
                     (with_pendingWrites [] (with_flushInProgress true b)))
          = with_manager m' (with_pendingWrites [] (with_flushInProgress true b)))
    as -> by (unfold arrive; simpl; by rewrite Harr).
  assert (∀ fuel b1, flush_chunks fuel (pendingWrites b) (keys (pendingWrites b))
                       chunkSize b1 = (Ok tt, b1)) as Hdone.
  { intros fuel b1. destruct fuel; cbn [flush_chunks]; rewrite Hn.
    all: assert ((chunkSize <? S n)%nat = false) as ->
           by (apply Nat.ltb_ge; unfold chunkSize; lia).
    all: done. }
  rewrite Hdone. eexists. split; [done|]. split; [done|].
  split; [reflexivity|]. simpl. done.
Qed.

(** The [set] case of the handler on a worker whose manager does not fail:
    the request is merged into the buffer and the timer re-armed 100ms
    ahead; nothing is written. *)
Lemma storageOp_set (args : pend) (b : bg) :
  pendingFlushDelay b ≠ 0 → queue (storageManager b) = None →
  Forall (λ o, o = None) (script (storageManager b)) →
  ∃ m1, healthy m1 ∧ store m1 = store (storageManager b)
    ∧ (∃ calls, trace m1 = (trace (storageManager b) ++ calls)%list
                ∧ writes calls = [])
    ∧ (storageOp (OpSet args) b).2
      = mkBg (spread (pendingWrites b) args) (Some (now b + 100))
             (flushInProgress b) (flushMetrics b) (pendingFlushDelay b) m1
             (now b) (arrivals b) (flushLog b).
Proof.
  intros Hd Hq Hscr.
  destruct (handler_init_healthy (storageManager b) (KObj ∅) Hq Hscr)
    as (m1 & Hm1 & Hh & Hst & Htr).
  exists m1. split; [done|]. split; [done|]. split; [done|].
  unfold storageOp. cbv zeta. apply Z.eqb_neq in Hd. rewrite Hd.
  destruct b as [p t f mt d sm n arr lg]. simpl in *.
  destruct (initialized sm) eqn:Hi; simpl.
  - by subst m1.
  - unfold callMethod. simpl.
    destruct (initialize (KObj ∅) sm) as [r m'] eqn:Hinit. simpl in *.
    by subst m1.
Qed.

Lemma writes_app (t1 t2 : list call) :
  writes (t1 ++ t2) = (writes t1 ++ writes t2)%list.
Proof. unfold writes. apply omap_app. Qed.

(** C8: on a worker whose manager does not fail, [set({a: 1})] followed
    within the debounce window by [set({a: 2})] leads to exactly one flush,
    when the re-armed timer fires: it makes a single chunk write, of [a: 2],
    at the first attempt, and the backing store receives exactly one write,
    in which [a] is 2.  The buffer is then empty and no timer is armed, so
    that no further flush follows; and no flush can fire before the window
    of the second request has elapsed, nor between the two requests. *)
Theorem debounced_sets_flush_once (m : state) (t1 t2 t3 : Z) :
  queue m = None → Forall (λ o, o = None) (script m) →
  0 ≤ t1 → t1 ≤ t2 → t2 < t1 + 100 → t2 + 100 ≤ t3 →
  let b0 := new_background m [] in
  let first := Message t1 (OpSet [("a", VNum 1)]) in
  let second := Message t2 (OpSet [("a", VNum 2)]) in
  (∃ b', run [first; second; TimerFires t3] b0 = Some b'
     ∧ flushLog b' = [Attempt [("a", VNum 2)] 1 true]
     ∧ (∃ w, writes (drop (length (trace m)) (trace (storageManager b'))) = [w]
             ∧ w !! "a" = Some (VNum 2))
     ∧ store (storageManager b') !! "a" = Some (VNum 2)
     ∧ pendingWrites b' = [] ∧ pendingFlushTimer b' = None)
  ∧ (∀ t, t < t2 + 100 → run [first; second; TimerFires t] b0 = None)
  ∧ (∀ t, run [first; TimerFires t; second] b0 = None).
Proof.
  intros Hq Hscr H0 H12 Hwin H3 b0 first second.
  (* the first request *)
  destruct (storageOp_set [("a", VNum 1)] (with_now t1 b0))
    as (m1 & Hm1 & Hst1 & (calls1 & Htr1 & Hw1) & Hb1); try done.
  simpl in Hst1, Htr1.
  set (b1 := mkBg [("a", VNum 1)] (Some (t1 + 100)) false
                  (mkMetrics 0 0 None None) 100 m1 t1 [] []).
  assert (step first b0 = Some b1) as Hstep1.
  { unfold first, step. change (now b0) with 0.
    assert ((0 <=? t1) = true) as -> by lia. rewrite Hb1. reflexivity. }
  (* the second request *)
  destruct Hm1 as (Hi1 & Hq1 & Hscr1).
  destruct (storageOp_set [("a", VNum 2)] (with_now t2 b1))
    as (m2 & Hm2 & Hst2 & (calls2 & Htr2 & Hw2) & Hb2); try done.
  simpl in Hst2, Htr2.
  set (b2 := mkBg [("a", VNum 2)] (Some (t2 + 100)) false
                  (mkMetrics 0 0 None None) 100 m2 t2 [] []).
  assert (step second b1 = Some b2) as Hstep2.
  { unfold second, step. change (now b1) with t1.
    assert ((t1 <=? t2) = true) as -> by lia. rewrite Hb2. reflexivity. }
  split; [|split].
  - (* the timer fires *)
    destruct (flush_single_chunk (with_timer None (with_now t3 b2)))
      as (m' & b' & Hset & Hm' & Hflush & Hmgr & Hlog & Hpend & Htimer & _ & _);
      try done.
    { simpl. lia. }
    { unfold wf_pend. simpl. apply NoDup_singleton. }
    exists b'. split.
    + cbn [run]. rewrite Hstep1, Hstep2. unfold step. simpl.
      assert (((t2 + 100 <=? t3) && (t2 <=? t3)) = true) as ->
        by (apply andb_true_iff; lia).
      by rewrite Hflush.
    + split; [exact Hlog|]. simpl in Hset.
      apply set_ok_inv in Hset as (_ & Hstore & Htrace & _).
      rewrite Hmgr. split; [|split; [|done]].
      * eexists. split.
        -- rewrite Htrace, Htr2, Htr1, <- !(assoc_L (++)), drop_app_length.
           rewrite !writes_app, Hw1, Hw2. reflexivity.
        -- apply lookup_union_Some_l. vm_compute. reflexivity.
      * rewrite Hstore. apply lookup_union_Some_l. vm_compute. reflexivity.
  - intros t Ht. cbn [run]. rewrite Hstep1, Hstep2. unfold step. simpl.
    assert ((t2 + 100 <=? t) = false) as -> by lia. done.
  - intros t. cbn [run]. rewrite Hstep1. unfold step at 1. simpl.
    destruct ((t1 + 100 <=? t) && (t1 <=? t)) eqn:Hfire; [|done].
    apply andb_true_iff in Hfire as [Hdue _].
    destruct (flush_single_chunk (with_timer None (with_now t b1)))
      as (m' & b' & _ & _ & Hflush & _ & _ & _ & _ & _ & Hnow); try done.
    { simpl. lia. }
    { unfold wf_pend. simpl. apply NoDup_singleton. }
    rewrite Hflush. simpl in Hnow. unfold second, step. cbn [snd]. rewrite Hnow.
    assert ((t <=? t2) = false) as -> by lia. done.
Qed.

Lemma debounced_sets_flush_once_witness :
  ∃ b', run [Message 0 (OpSet [("a", VNum 1)]);
             Message 50 (OpSet [("a", VNum 2)]);
             TimerFires 150]
            (new_background (new_StorageManager ∅ []) []) = Some b'
    ∧ flushLog b' = [Attempt [("a", VNum 2)] 1 true]
    ∧ store (storageManager b') !! "a" = Some (VNum 2).
Proof.
  destruct (debounced_sets_flush_once (new_StorageManager ∅ []) 0 50 150)
    as [(b' & Hrun & Hlog & _ & Hstore & _) _].
  - reflexivity.
  - apply Forall_nil_2.
  - lia.
  - lia.
  - lia.
  - lia.
  - exists b'. split; [exact Hrun|]. split; [exact Hlog | exact Hstore].
Defined.

(** ** The buffer stays a well-formed object *)

Lemma wf_pend_nil : wf_pend [].
Proof. unfold wf_pend. simpl. apply NoDup_nil_2. Qed.

Lemma flushPendingWrites_wf (b : bg) :
  wf_pend (pendingWrites b) → wf_pend (pendingWrites (flushPendingWrites b).2).
Proof.
  intros Hwf. destruct (flushPendingWrites b) as [r b'] eqn:Hrun. simpl.
  destruct (decide (pendingWrites b = [])) as [Hnil|Hne].
  { rewrite flushPendingWrites_noop in Hrun by by left. by injection Hrun as _ <-. }
  destruct (flushInProgress b) eqn:Hf.
  { rewrite flushPendingWrites_noop in Hrun by by right. by injection Hrun as _ <-. }
  destruct (flushPendingWrites_spec b b' r Hne Hf Hwf Hrun)
    as (evs & consumed & _ & _ & _ & Hp & _).
  rewrite Hp. destruct (is_ok r).
  - apply wf_absorbed, wf_pend_nil.
  - by apply wf_spread.
Qed.

Lemma callMethod_pending {A} (method : M A) (b : bg) :
  pendingWrites (callMethod method b).2 = pendingWrites b.
Proof. unfold callMethod. by destruct (method (storageManager b)). Qed.

Lemma respond_state {A} (f : A → result) (x : res A * bg) :
  (respond f x).2 = x.2.
Proof. unfold respond. by destruct x.1. Qed.

Lemma storageOp_wf (req : request) (b : bg) :
  wf_pend (pendingWrites b) → wf_pend (pendingWrites (storageOp req b).2).
Proof.
  intros Hwf. unfold storageOp. cbv zeta.
  set (b1 := if pendingFlushDelay b =? 0 then with_delay 100 b else b).
  assert (wf_pend (pendingWrites b1)) as Hwf1.
  { unfold b1. by destruct (pendingFlushDelay b =? 0). }
  clearbody b1.
  set (b2 := if initialized (storageManager b1) then b1 else _).
  assert (wf_pend (pendingWrites b2)) as Hwf2.
  { unfold b2. destruct (initialized (storageManager b1)); [done|].
    by rewrite callMethod_pending. }
  clearbody b2.
  destruct req as [args|args|key item|key item|fromKey toKey item| | |[d|]| | |];
    rewrite ?respond_state, ?callMethod_pending; try exact Hwf2.
  - simpl. by apply wf_spread.
  - by apply flushPendingWrites_wf.
  - by apply (flushPendingWrites_wf (with_timer None b2)).
Qed.

(** Every state the worker reaches from its start has a well-formed buffer. *)
Lemma run_wf (evs : list event) :
  ∀ b b', wf_pend (pendingWrites b) → run evs b = Some b' →
          wf_pend (pendingWrites b').
Proof.
  induction evs as [|ev evs IH]; intros b b' Hwf Hrun.
  - by injection Hrun as <-.
  - cbn [run] in Hrun. destruct (step ev b) as [b1|] eqn:Hstep; [|done].
    apply (IH b1 b'); [|done]. clear Hrun.
    destruct ev as [t req|t]; simpl in Hstep.
    + destruct (now b <=? t); [|done]. injection Hstep as <-.
      by apply storageOp_wf.
    + destruct (pendingFlushTimer b) as [due|]; [|done].
      destruct ((due <=? t) && (now b <=? t)); [|done]. injection Hstep as <-.
      by apply flushPendingWrites_wf.
Qed.

(** ** The cache is an object once the manager is initialized *)

Lemma cache_ready_new (backing : obj) (outcomes : list (option string)) :
  cache_ready (new_StorageManager backing outcomes).
Proof. intros Hi. discriminate. Qed.

Lemma enqueue_cache_ready {A} (body : M A) (s : state) :
  cache_ready s → cache_ready (body s).2 → cache_ready (enqueue body s).2.
Proof.
  intros Hs Hb. unfold enqueue. destruct (queue s); [done|].
  by destruct (body s).
Qed.

Lemma _setInternal_cache_ready (items : obj) (skip : bool) (s : state) :
  cache_ready s → cache_ready (_setInternal items skip s).2.
Proof.
  intros Hs. destruct skip.
  - unfold _setInternal, storage_set, throw, modify.
    unfold mbind, M_bind, mret, M_ret, get_state. simpl.
    destruct (initialized s) eqn:Hi; simpl; [|done].
    rewrite adapter_eq. destruct (head (script s)) as [[msg|]|]; simpl; try done.
    all: intros _; by eexists.
  - rewrite _setInternal_eq. cbv zeta.
    destruct (initialized s) eqn:Hi; [|done].
    destruct (next_resolves s); [|done].
    destruct (next_resolves (after_call _ s)); [|done].
    intros _. by eexists.
Qed.

Lemma initialize_cache_ready (schema : keys_arg) (s : state) :
  cache_ready s → cache_ready (initialize schema s).2.
Proof.
  intros Hs. unfold initialize. destruct (initialized s) eqn:Hi; [done|].
  apply enqueue_cache_ready; [done|].
  unfold initialize_body, storage_get_schema, storage_get_defaults, storage_get.
  unfold mbind, M_bind, mret, M_ret, get_state, modify.
  destruct schema as [k|ks|defaults]; rewrite adapter_eq.
  all: destruct (head (script s)) as [[msg|]|]; simpl.
  all: first [ by (intros _; eexists) | by (unfold cache_ready; simpl; rewrite Hi) ].
Qed.

Lemma set_cache_ready (items : obj) (s : state) :
  cache_ready s → cache_ready (set items s).2.
Proof.
  intros Hs. apply enqueue_cache_ready; [done|]. by apply _setInternal_cache_ready.
Qed.

Lemma moveToSet_cache_ready (fromKey toKey item : string) (s : state) :
  cache_ready s → cache_ready (moveToSet fromKey toKey item s).2.
Proof.
  intros Hs. destruct (moveToSet fromKey toKey item s) as [[u|e] s'] eqn:Hrun.
  - apply moveToSet_ok_inv in Hrun as (_ & _ & _ & fs & ts & _ & _ & Hc & _).
    intros _. simpl. rewrite Hc. by eexists.
  - apply moveToSet_err_inv in Hrun as (Hc & _ & Hi).
    unfold cache_ready. simpl. by rewrite Hc, Hi.
Qed.
